(** * Mastermind solver core: a shallow embedding and its properties

    The solver works on four-peg codes over six colours.  The embedding
    follows the TypeScript source function by function: numbers are
    integers ([Z]), strings are sequences of UTF-16 code units, a
    JavaScript [Map] is an association list that remembers insertion
    order, loops are folds over the iterated sequence with the mutated
    variables as explicit state. *)

From Stdlib Require Import ZArith NArith List Bool Lia Permutation Sorted.
From Stdlib Require Import QArith.
Import ListNotations.
Local Open Scope Z_scope.

(** ** JavaScript values used by the solver *)

Module Js.

(** A string is its sequence of UTF-16 code units. *)
Definition str := list N.

Fixpoint str_eqb (a b : str) : bool :=
  match a, b with
  | [], [] => true
  | x :: a', y :: b' => N.eqb x y && str_eqb a' b'
  | _, _ => false
  end.

(** [a < b] on strings: code units compared left to right, a proper
    prefix being smaller. *)
Fixpoint str_ltb (a b : str) : bool :=
  match a, b with
  | _, [] => false
  | [], _ :: _ => true
  | x :: a', y :: b' =>
      if N.ltb x y then true
      else if N.ltb y x then false
      else str_ltb a' b'
  end.

(** White space and line terminators, the code units that
    [String.prototype.trim] strips: TAB, LF, VT, FF, CR, SP, NBSP,
    U+1680, U+2000..U+200A, LS, PS, U+202F, U+205F, U+3000, U+FEFF. *)
Definition is_space (u : N) : bool :=
  ((9 <=? u) && (u <=? 13) || (u =? 32) || (u =? 160) || (u =? 5760)
   || (8192 <=? u) && (u <=? 8202) || (u =? 8232) || (u =? 8233)
   || (u =? 8239) || (u =? 8287) || (u =? 12288) || (u =? 65279))%N.

Fixpoint trim_start (s : str) : str :=
  match s with
  | u :: s' => if is_space u then trim_start s' else s
  | [] => []
  end.

Definition trim_end (s : str) : str := rev (trim_start (rev s)).

Definition trim (s : str) : str := trim_end (trim_start s).

(** Decimal digits of a number, most significant first. *)
Fixpoint uint_units (d : Decimal.uint) : str :=
  match d with
  | Decimal.Nil => []
  | Decimal.D0 d => 48%N :: uint_units d
  | Decimal.D1 d => 49%N :: uint_units d
  | Decimal.D2 d => 50%N :: uint_units d
  | Decimal.D3 d => 51%N :: uint_units d
  | Decimal.D4 d => 52%N :: uint_units d
  | Decimal.D5 d => 53%N :: uint_units d
  | Decimal.D6 d => 54%N :: uint_units d
  | Decimal.D7 d => 55%N :: uint_units d
  | Decimal.D8 d => 56%N :: uint_units d
  | Decimal.D9 d => 57%N :: uint_units d
  end.

(** [String(n)] for an integer [n]: its decimal digits, with a leading
    minus sign (code unit 45) when negative. *)
Definition string_of_number (n : Z) : str :=
  match Z.to_int n with
  | Decimal.Pos d => uint_units d
  | Decimal.Neg d => 45%N :: uint_units d
  end.

(** [Number(x)] for a one-character string [x] holding the decimal
    digit with code unit [u]. *)
Definition number_of_digit (u : N) : Z := Z.of_N u - 48.

(** [arr.join("")] on an array of numbers. *)
Definition join_numbers (l : list Z) : str := concat (map string_of_number l).

(** *** [Map]: keys in insertion order, one entry per key *)
Section JsMap.
Context {K V : Type}.
Variable keqb : K -> K -> bool.

Definition t := list (K * V).

Fixpoint get (m : t) (k : K) : option V :=
  match m with
  | [] => None
  | (k', v) :: m' => if keqb k k' then Some v else get m' k
  end.

(** [m.set(k, v)]: an existing key keeps its place, a new key goes
    last. *)
Fixpoint set (m : t) (k : K) (v : V) : t :=
  match m with
  | [] => [(k, v)]
  | (k', v') :: m' => if keqb k k' then (k', v) :: m'
                      else (k', v') :: set m' k v
  end.

Definition keys (m : t) : list K := map fst m.
Definition values (m : t) : list V := map snd m.
End JsMap.

(** [m.get(k) ?? 0] *)
Definition get_or0 {K} (keqb : K -> K -> bool) (m : list (K * Z)) (k : K) : Z :=
  match get keqb m k with
  | Some v => v
  | None => 0
  end.

(** Every stored count is at least one. *)
Definition positive_values {K} (m : list (K * Z)) : Prop :=
  forall e, In e m -> 1 <= snd e.

(** *** [Set] of strings *)
Definition set_has (s : list str) (k : str) : bool := existsb (str_eqb k) s.

Definition set_add (s : list str) (k : str) : list str :=
  if set_has s k then s else s ++ [k].

Definition set_of_list (l : list str) : list str := fold_left set_add l [].

(** *** Numbers that may be [Infinity] *)
Inductive num :=
| Fin (n : Z)
| Infinity.

(** [w >= b], [w < b] and [w === b] for a finite [w]. *)
Definition geb_num (w : Z) (b : num) : bool :=
  match b with Fin n => n <=? w | Infinity => false end.

Definition ltb_num (w : Z) (b : num) : bool :=
  match b with Fin n => w <? n | Infinity => true end.

Definition eqb_num (w : Z) (b : num) : bool :=
  match b with Fin n => w =? n | Infinity => false end.

End Js.

(** ** Data model *)

Definition Peg := Z.

Record Code := mkCode { peg0 : Peg; peg1 : Peg; peg2 : Peg; peg3 : Peg }.

Record Feedback := mkFeedback { black : Z; white : Z }.

Record Step := mkStep { guess : Code; feedback : Feedback }.

(** [code[i]] for [i] in 0..3. *)
Definition code_get (c : Code) (i : nat) : Peg :=
  match i with
  | 0%nat => peg0 c
  | 1%nat => peg1 c
  | 2%nat => peg2 c
  | _ => peg3 c
  end.

Definition code_elems (c : Code) : list Peg := [peg0 c; peg1 c; peg2 c; peg3 c].

(** The type [Peg] is [1 | 2 | 3 | 4 | 5 | 6]; a code is well typed when
    its four entries are pegs. *)
Definition is_peg (p : Z) : bool := (1 <=? p) && (p <=? 6).

Definition well_typed (c : Code) : bool :=
  is_peg (peg0 c) && is_peg (peg1 c) && is_peg (peg2 c) && is_peg (peg3 c).

Definition code_eqb (a b : Code) : bool :=
  (peg0 a =? peg0 b) && (peg1 a =? peg1 b) && (peg2 a =? peg2 b) && (peg3 a =? peg3 b).

(** ** generateAllCodes *)

(** [for (let a = lo; a <= hi; a = a + 1) body], threading the state. *)
Definition for_upto {S : Type} (lo hi : Z) (body : Z -> S -> S) (s : S) : S :=
  fold_left (fun st k => body (lo + Z.of_nat k) st)
            (seq 0 (Z.to_nat (hi + 1 - lo))) s.

Definition generateAllCodes : list Code :=
  for_upto 1 6 (fun a =>
    for_upto 1 6 (fun b =>
      for_upto 1 6 (fun c =>
        for_upto 1 6 (fun d out => out ++ [mkCode a b c d])))) [].

Definition ALL_CODES : list Code := generateAllCodes.

(** ** codeToString and parseCodeString *)

Definition codeToString (code : Code) : Js.str := Js.join_numbers (code_elems code).

Definition is_digit_1_6 (u : N) : bool := ((49 <=? u) && (u <=? 54))%N.

(** A character class repeated exactly [n] times at the head of [s];
    the result is the unread rest. *)
Fixpoint match_class (cls : N -> bool) (n : nat) (s : Js.str) : option Js.str :=
  match n with
  | O => Some s
  | S n' =>
      match s with
      | u :: s' => if cls u then match_class cls n' s' else None
      | [] => None
      end
  end.

(** [/^[1-6]{4}$/.test(t)]: the class four times from the start, then
    the end of the input. *)
Definition code_regex_test (t : Js.str) : bool :=
  match match_class is_digit_1_6 4 t with
  | Some [] => true
  | _ => false
  end.

Definition parseCodeString (s : Js.str) : option Code :=
  let t := Js.trim s in
  if negb (code_regex_test t) then None
  else
    let nums := map Js.number_of_digit t in
    Some (mkCode (nth 0 nums 0) (nth 1 nums 0) (nth 2 nums 0) (nth 3 nums 0)).

(** ** feedbackFor *)

(** The variables the first loop of [feedbackFor] updates. *)
Record Tally := mkTally {
  t_black : Z;
  secretCounts : Js.t (K:=Z) (V:=Z);
  guessCounts : Js.t (K:=Z) (V:=Z)
}.

Definition bump (m : Js.t) (k : Z) : Js.t :=
  Js.set Z.eqb m k (Js.get_or0 Z.eqb m k + 1).

Definition tally_step (secret guess : Code) (st : Tally) (i : nat) : Tally :=
  if code_get secret i =? code_get guess i then
    mkTally (t_black st + 1) (secretCounts st) (guessCounts st)
  else
    mkTally (t_black st)
            (bump (secretCounts st) (code_get secret i))
            (bump (guessCounts st) (code_get guess i)).

Definition tally_from (secret guess : Code) (idx : list nat) (st : Tally) : Tally :=
  fold_left (tally_step secret guess) idx st.

Definition tally (secret guess : Code) : Tally :=
  tally_from secret guess (seq 0 4) (mkTally 0 [] []).

(** The second loop: over the entries of [guessCounts]. *)
Definition white_of (sCounts gCounts : Js.t (K:=Z) (V:=Z)) : Z :=
  fold_left (fun w e => w + Z.min (Js.get_or0 Z.eqb sCounts (fst e)) (snd e))
            gCounts 0.

Definition feedbackFor (secret guess : Code) : Feedback :=
  let st := tally secret guess in
  mkFeedback (t_black st) (white_of (secretCounts st) (guessCounts st)).

(** ** isValidFeedback *)

Definition isValidFeedback (fb : Feedback) : bool :=
  if (black fb <? 0) || (white fb <? 0) then false
  else if (black fb >? 4) || (white fb >? 4) then false
  else if black fb + white fb >? 4 then false
  else true.

(** ** filterRemaining *)

Definition consistent (step : Step) (secret : Code) : bool :=
  let fb := feedbackFor secret (guess step) in
  (black fb =? black (feedback step)) && (white fb =? white (feedback step)).

Definition filterRemaining (steps : list Step) (candidates : list Code) : list Code :=
  fold_left (fun remaining step => filter (consistent step) remaining)
            steps candidates.

(** The call with the default second argument. *)
Definition filterRemaining_default (steps : list Step) : list Code :=
  filterRemaining steps ALL_CODES.

(** ** recommendNextGuess *)

Definition feedbackKey (fb : Feedback) : Js.str :=
  Js.string_of_number (black fb) ++ Js.string_of_number (white fb).

(** The variables the scan over [allGuesses] updates. *)
Record Best := mkBest {
  bestGuess : Code;
  bestScore : Js.num;
  bestIsRemaining : bool
}.

(** The inner loop over [remaining]: how many secrets give each key. *)
Definition partitions_of (remaining : list Code) (g : Code) : Js.t (K:=Js.str) (V:=Z) :=
  fold_left (fun parts secret =>
               let k := feedbackKey (feedbackFor secret g) in
               Js.set Js.str_eqb parts k (Js.get_or0 Js.str_eqb parts k + 1))
            remaining [].

(** The loop over [partitions.values()], with its [break]. *)
Fixpoint scan_worst (best : Js.num) (vals : list Z) (worst : Z) : Z :=
  match vals with
  | [] => worst
  | v :: vals' =>
      let worst' := if v >? worst then v else worst in
      if Js.geb_num worst' best then worst' else scan_worst best vals' worst'
  end.

(** One turn of the loop over [allGuesses]. *)
Definition consider (remaining : list Code) (remainingSet : list Js.str)
                    (b : Best) (g : Code) : Best :=
  let partitions := partitions_of remaining g in
  let worst := scan_worst (bestScore b) (Js.values partitions) 0 in
  let isInRemaining := Js.set_has remainingSet (codeToString g) in
  if Js.ltb_num worst (bestScore b) then
    mkBest g (Js.Fin worst) isInRemaining
  else if Js.eqb_num worst (bestScore b) then
    if isInRemaining && negb (bestIsRemaining b) then
      mkBest g (bestScore b) true
    else if Bool.eqb isInRemaining (bestIsRemaining b) then
      if Js.str_ltb (codeToString g) (codeToString (bestGuess b)) then
        mkBest g (bestScore b) (bestIsRemaining b)
      else b
    else b
  else b.

Definition recommendNextGuess (remaining allGuesses : list Code) : Code :=
  match remaining with
  | [] => mkCode 1 1 2 2
  | [only] => only
  | _ =>
      let remainingSet := Js.set_of_list (map codeToString remaining) in
      bestGuess (fold_left (consider remaining remainingSet) allGuesses
                           (mkBest (mkCode 1 1 2 2) Js.Infinity false))
  end.

Definition recommendNextGuess_default (remaining : list Code) : Code :=
  recommendNextGuess remaining ALL_CODES.

Definition firstGuess : Code := mkCode 1 1 2 2.

(** ** Auxiliary notions for the statements *)

Definition zsum (l : list Z) : Z := fold_right Z.add 0 l.

(** The state of the scoring loop with the two tallies exchanged. *)
Definition swap_tally (st : Tally) : Tally :=
  mkTally (t_black st) (guessCounts st) (secretCounts st).

(** What the scoring loop keeps true of its variables. *)
Record tally_ok (st : Tally) : Prop := mkTallyOk {
  ok_black : 0 <= t_black st;
  ok_skeys : NoDup (Js.keys (secretCounts st));
  ok_gkeys : NoDup (Js.keys (guessCounts st));
  ok_spos : Js.positive_values (secretCounts st);
  ok_gpos : Js.positive_values (guessCounts st)
}.

(** The summand of [white] at one peg. *)
Definition common (m1 m2 : Js.t (K:=Z) (V:=Z)) (k : Z) : Z :=
  Z.min (Js.get_or0 Z.eqb m1 k) (Js.get_or0 Z.eqb m2 k).

Definition b2z (b : bool) : Z := if b then 1 else 0.

(** The six pegs, in order. *)
Definition all_pegs : list Peg := [1; 2; 3; 4; 5; 6].

(** Dictionary order on codes, the first position weighing most. *)
Definition code_ltb (a b : Code) : bool :=
  if peg0 a <? peg0 b then true else if peg0 b <? peg0 a then false
  else if peg1 a <? peg1 b then true else if peg1 b <? peg1 a then false
  else if peg2 a <? peg2 b then true else if peg2 b <? peg2 a then false
  else peg3 a <? peg3 b.

Definition code_lt (a b : Code) : Prop := code_ltb a b = true.

(** The code at place [i] of the dictionary, counting from 0: the digits
    of [i] in base 6, each moved up by one. *)
Definition code_at (i : nat) : Code :=
  let z := Z.of_nat i in
  mkCode (1 + z / 216) (1 + (z / 36) mod 6) (1 + (z / 6) mod 6) (1 + z mod 6).

Fixpoint strongly_sortedb (l : list Code) : bool :=
  match l with
  | [] => true
  | c :: l' => forallb (code_ltb c) l' && strongly_sortedb l'
  end.

(** Only white space. *)
Definition all_space (s : Js.str) : Prop := Forall (fun u => Js.is_space u = true) s.

(** No white space at all. *)
Definition no_space (s : Js.str) : Prop := Forall (fun u => Js.is_space u = false) s.

(** Four characters, each one of '1'..'6'. *)
Definition four_digits (t : Js.str) : Prop :=
  length t = 4%nat /\ Forall (fun u => (49 <= u <= 54)%N) t.

(** A code that uses neither symbol 1 nor symbol 2. *)
Definition avoids_1_2 (c : Code) : bool :=
  forallb (fun p => negb (p =? 1) && negb (p =? 2)) (code_elems c).

(** The history of a game against [secret]: each guess with the score
    the secret gives it. *)
Definition scored_history (secret : Code) (guesses : list Code) : list Step :=
  map (fun g => mkStep g (feedbackFor secret g)) guesses.

(** What is left after the first guess 1122 is answered (2, 2). *)
Definition after_1122_scored_2_2 : list Code :=
  filterRemaining [mkStep (mkCode 1 1 2 2) (mkFeedback 2 2)] ALL_CODES.

(** [parseCodeString] undoes [codeToString] on this code. *)
Definition parses_back (c : Code) : bool :=
  match parseCodeString (codeToString c) with
  | Some c' => code_eqb c c'
  | None => false
  end.

(** ** The recommender as the specification words it *)

Definition feedback_eqb (x y : Feedback) : bool :=
  (black x =? black y) && (white x =? white y).

(** The group of [remaining] that answers [fb] to the guess [g]. *)
Definition group (remaining : list Code) (g : Code) (fb : Feedback) : list Code :=
  filter (fun c => feedback_eqb (feedbackFor c g) fb) remaining.

(** [worst g]: the size of the largest group. *)
Definition worst (remaining : list Code) (g : Code) : Z :=
  fold_right Z.max 0
    (map (fun c => Z.of_nat (length (group remaining g (feedbackFor c g)))) remaining).

(** The scan with the [break] taken out: the largest value. *)
Definition scan_all (vals : list Z) : Z :=
  fold_left (fun w v => if v >? w then v else w) vals 0.

Definition consider_unpruned (remaining : list Code) (remainingSet : list Js.str)
                             (b : Best) (g : Code) : Best :=
  let partitions := partitions_of remaining g in
  let worst := scan_all (Js.values partitions) in
  let isInRemaining := Js.set_has remainingSet (codeToString g) in
  if Js.ltb_num worst (bestScore b) then
    mkBest g (Js.Fin worst) isInRemaining
  else if Js.eqb_num worst (bestScore b) then
    if isInRemaining && negb (bestIsRemaining b) then
      mkBest g (bestScore b) true
    else if Bool.eqb isInRemaining (bestIsRemaining b) then
      if Js.str_ltb (codeToString g) (codeToString (bestGuess b)) then
        mkBest g (bestScore b) (bestIsRemaining b)
      else b
    else b
  else b.

Definition recommendNextGuess_unpruned (remaining allGuesses : list Code) : Code :=
  match remaining with
  | [] => mkCode 1 1 2 2
  | [only] => only
  | _ =>
      let remainingSet := Js.set_of_list (map codeToString remaining) in
      bestGuess (fold_left (consider_unpruned remaining remainingSet) allGuesses
                           (mkBest (mkCode 1 1 2 2) Js.Infinity false))
  end.

(** The score the scan without early exit gives a guess. *)
Definition full_score (remaining : list Code) (g : Code) : Z :=
  scan_all (Js.values (partitions_of remaining g)).

(** The membership test of the scan. *)
Definition in_remaining_set (remaining : list Code) (g : Code) : bool :=
  Js.set_has (Js.set_of_list (map codeToString remaining)) (codeToString g).

(** [a] is at least as good a choice as [g]: a smaller score; or the
    same score and [a] alone among the remaining; or the same score, the
    same membership, and [g] not before [a] as a string. *)
Definition no_worse (remaining : list Code) (a g : Code) : Prop :=
  full_score remaining a < full_score remaining g
  \/ (full_score remaining a = full_score remaining g
      /\ ((in_remaining_set remaining a = true /\ in_remaining_set remaining g = false)
          \/ (in_remaining_set remaining a = in_remaining_set remaining g
              /\ Js.str_ltb (codeToString g) (codeToString a) = false))).

(** What the scan without early exit keeps true after the guesses [seen]. *)
Record best_inv (remaining seen : list Code) (b : Best) : Prop := mkBestInv {
  inv_score : bestScore b = Js.Fin (full_score remaining (bestGuess b));
  inv_member : bestIsRemaining b = in_remaining_set remaining (bestGuess b);
  inv_seen : In (bestGuess b) seen;
  inv_least : forall g, In g seen -> no_worse remaining (bestGuess b) g
}.

(** The largest of a list of counts, 0 for none. *)
Definition zmax (l : list Z) : Z := fold_right Z.max 0 l.

(** Counting loop: one more for the key of each element, as the inner
    loop of the recommender does. *)
Definition count_into {A K : Type} (keqb : K -> K -> bool) (key : A -> K)
           (l : list A) (m0 : Js.t (K:=K) (V:=Z)) : Js.t (K:=K) (V:=Z) :=
  fold_left (fun parts x =>
               Js.set keqb parts (key x) (Js.get_or0 keqb parts (key x) + 1))
            l m0.

(** How many elements of [l] have the key [k]. *)
Definition occurrences {A K : Type} (keqb : K -> K -> bool) (key : A -> K)
           (l : list A) (k : K) : Z :=
  Z.of_nat (length (filter (fun x => keqb (key x) k) l)).

(** ** Further notions for the scoring function *)

(** How often the peg [k] occurs in a code. *)
Definition peg_count (c : Code) (k : Z) : Z :=
  Z.of_nat (count_occ Z.eq_dec (code_elems c) k).

(** Position [i] agrees and holds [k]. *)
Definition hit_at (secret guess : Code) (k : Z) (i : nat) : Z :=
  b2z ((code_get secret i =? code_get guess i) && (code_get guess i =? k)).

(** Position [i] disagrees and the code [c] holds [k] there. *)
Definition miss_at (secret guess c : Code) (k : Z) (i : nat) : Z :=
  b2z (negb (code_get secret i =? code_get guess i) && (code_get c i =? k)).

(** ** Further notions for the filter and the recommender *)

(** A candidate that agrees with every step of a history. *)
Definition consistent_with_all (steps : list Step) (c : Code) : bool :=
  forallb (fun st => consistent st c) steps.

(** The state of the recommender's scan after the guesses [allGuesses]. *)
Definition scan_guesses (remaining allGuesses : list Code) : Best :=
  fold_left (consider remaining (Js.set_of_list (map codeToString remaining)))
            allGuesses (mkBest (mkCode 1 1 2 2) Js.Infinity false).

(** The score the scan with early exit gives a guess, [best] being the
    best score so far. *)
Definition pruned_score (remaining : list Code) (best : Js.num) (g : Code) : Z :=
  scan_worst best (Js.values (partitions_of remaining g)) 0.

(** [a] comes before [b] when printed. *)
Definition printed_lt (a b : Code) : Prop :=
  Js.str_ltb (codeToString a) (codeToString b) = true.

(** What the scan with early exit keeps true after the guesses [seen]:
    the best score is the least [worst] among them. *)
Record scan_inv (remaining seen : list Code) (b : Best) (m : Z) : Prop := mkScanInv {
  si_score : bestScore b = Js.Fin m;
  si_least : forall g, In g seen -> m <= worst remaining g;
  si_attained : exists g, In g seen /\ worst remaining g = m;
  si_seen : In (bestGuess b) seen;
  si_member : bestIsRemaining b = in_remaining_set remaining (bestGuess b)
}.

(** ** The application: the callers of the solver in [App.tsx] *)

Module App.

(** A JavaScript number as the pin fields can hold it: not a number, an
    infinity, or a finite value, which is a rational.  Negative zero is not
    told apart from zero. *)
Inductive number :=
| NaN
| PosInfinity
| NegInfinity
| Finite (q : Q).

(** [Number.isFinite(n)] *)
Definition isFinite (n : number) : bool :=
  match n with Finite _ => true | _ => false end.

(** [Math.trunc(q)]: the integer part, towards zero. *)
Definition trunc (q : Q) : Z := Z.quot (Qnum q) (Z.pos (Qden q)).

Definition clampInt (n : number) (min max : Z) : Z :=
  match n with
  | Finite q => Z.max min (Z.min max (trunc q))
  | _ => min
  end.

Definition makeEmptyGuess : Code := mkCode 1 1 1 1.

(** The state of the component that the solver's callers read and write. *)
Record State := mkState {
  steps : list Step;
  currentGuess : Code;
  blackPins : number;
  whitePins : number
}.

(** The state the component starts in: [loaded] is what [loadState]
    returned, the stored steps or nothing. *)
Definition initialState (loaded : option (list Step)) : State :=
  let steps0 := match loaded with Some s => s | None => [] end in
  mkState steps0
          (match steps0 with [] => firstGuess | _ => makeEmptyGuess end)
          (Finite 0) (Finite 0).

Definition addStep (st : State) : State :=
  let fb := mkFeedback (clampInt (blackPins st) 0 4) (clampInt (whitePins st) 0 4) in
  if negb (isValidFeedback fb) then st
  else
    let step := mkStep (currentGuess st) fb in
    let nextSteps := steps st ++ [step] in
    let nextRemaining := filterRemaining nextSteps ALL_CODES in
    let nextRec := recommendNextGuess nextRemaining ALL_CODES in
    mkState nextSteps nextRec (Finite 0) (Finite 0).

Definition resetAll (st : State) : State :=
  mkState [] firstGuess (Finite 0) (Finite 0).

(** The pin fields: [setBlackPins(clampInt(Number(e.target.value), 0, 4))]. *)
Definition changeBlackPins (n : number) (st : State) : State :=
  mkState (steps st) (currentGuess st) (Finite (inject_Z (clampInt n 0 4))) (whitePins st).

Definition changeWhitePins (n : number) (st : State) : State :=
  mkState (steps st) (currentGuess st) (blackPins st) (Finite (inject_Z (clampInt n 0 4))).

(** The code editor: position [i] of the current guess becomes [v]. *)
Definition changePeg (i : nat) (v : Z) (st : State) : State :=
  let c := currentGuess st in
  let c' := match i with
            | 0%nat => mkCode v (peg1 c) (peg2 c) (peg3 c)
            | 1%nat => mkCode (peg0 c) v (peg2 c) (peg3 c)
            | 2%nat => mkCode (peg0 c) (peg1 c) v (peg3 c)
            | _ => mkCode (peg0 c) (peg1 c) (peg2 c) v
            end in
  mkState (steps st) c' (blackPins st) (whitePins st).

(** The derived values [remaining] and [recommended]. *)
Definition remaining (st : State) : list Code := filterRemaining (steps st) ALL_CODES.

Definition recommended (st : State) : Code := recommendNextGuess (remaining st) ALL_CODES.

(** What the user can do: press a button, type a pin count, choose one
    of the six pegs offered at one of the four positions. *)
Inductive action :=
| AddStep
| ResetAll
| ChangeBlackPins (n : number)
| ChangeWhitePins (n : number)
| ChangePeg (i : nat) (v : Z).

Definition offered (a : action) : Prop :=
  match a with
  | ChangePeg i v => (i < 4)%nat /\ is_peg v = true
  | _ => True
  end.

Definition handle (a : action) (st : State) : State :=
  match a with
  | AddStep => addStep st
  | ResetAll => resetAll st
  | ChangeBlackPins n => changeBlackPins n st
  | ChangeWhitePins n => changeWhitePins n st
  | ChangePeg i v => changePeg i v st
  end.

(** The states the component can reach from its start. *)
Inductive reachable (loaded : option (list Step)) : State -> Prop :=
| reach_init : reachable loaded (initialState loaded)
| reach_step : forall st a,
    reachable loaded st -> offered a -> reachable loaded (handle a st).

(** A pin field holds a whole number from 0 to 4. *)
Definition pin_ok (n : number) : Prop :=
  exists z, n = Finite (inject_Z z) /\ 0 <= z <= 4.

Record ElimInfo := mkElimInfo { eliminatedAtStep : option Z }.

Definition is_null (o : option Z) : bool :=
  match o with None => true | Some _ => false end.

(** The first loop of [eliminationMap]: an entry for every code. *)
Definition elim_init : Js.t (K:=Js.str) (V:=ElimInfo) :=
  fold_left (fun info code => Js.set Js.str_eqb info (codeToString code) (mkElimInfo None))
            ALL_CODES [].

(** One turn of the inner loop.  [None] stands for the exception that
    reading a field of a missing entry raises. *)
Definition elim_visit (keep : list Js.str) (i : nat)
           (oinfo : option (Js.t (K:=Js.str) (V:=ElimInfo))) (code : Code)
  : option (Js.t (K:=Js.str) (V:=ElimInfo)) :=
  match oinfo with
  | None => None
  | Some info =>
      let k := codeToString code in
      match Js.get Js.str_eqb info k with
      | None => None
      | Some entry =>
          if is_null (eliminatedAtStep entry) && negb (Js.set_has keep k) then
            Some (Js.set Js.str_eqb info k (mkElimInfo (Some (Z.of_nat i + 1))))
          else Some info
      end
  end.

(** One turn of the outer loop, for the step at index [i]. *)
Definition elim_round (steps : list Step)
           (oinfo : option (Js.t (K:=Js.str) (V:=ElimInfo))) (i : nat)
  : option (Js.t (K:=Js.str) (V:=ElimInfo)) :=
  let prefix := firstn (i + 1) steps in
  let keep := Js.set_of_list (map codeToString (filterRemaining prefix ALL_CODES)) in
  fold_left (elim_visit keep i) ALL_CODES oinfo.

Definition eliminationMap (steps : list Step)
  : option (Js.t (K:=Js.str) (V:=ElimInfo)) :=
  fold_left (elim_round steps) (seq 0 (length steps)) (Some elim_init).

End App.

(** The number, counted from 1, of the first step of a history that a
    code does not agree with. *)
Fixpoint first_inconsistent_from (n : Z) (steps : list Step) (c : Code) : option Z :=
  match steps with
  | [] => None
  | st :: rest =>
      if consistent st c then first_inconsistent_from (n + 1) rest c else Some n
  end.

Definition first_inconsistent (steps : list Step) (c : Code) : option Z :=
  first_inconsistent_from 1 steps c.

(** A recorded step the application can rely on: feedback that passes
    the validator, and a well typed guess. *)
Definition step_ok (st : Step) : Prop :=
  isValidFeedback (feedback st) = true /\ well_typed (guess st) = true.

(** What every reachable state of the application satisfies. *)
Record state_ok (st : App.State) : Prop := mkStateOk {
  ok_steps : Forall step_ok (App.steps st);
  ok_guess : well_typed (App.currentGuess st) = true;
  ok_black_pins : App.pin_ok (App.blackPins st);
  ok_white_pins : App.pin_ok (App.whitePins st)
}.

(** What one round of [eliminationMap] does to the entry of the key [k]. *)
Definition elim_mark (keep : list Js.str) (i : nat) (k : Js.str)
           (e : App.ElimInfo) : App.ElimInfo :=
  if App.is_null (App.eliminatedAtStep e) && negb (Js.set_has keep k) then
    App.mkElimInfo (Some (Z.of_nat i + 1))
  else e.

(** * Properties *)

(** ** Sums of integers *)

Lemma zsum_app (l1 l2 : list Z) : zsum (l1 ++ l2) = zsum l1 + zsum l2.
Proof.
  induction l1 as [|x l1 IH]; simpl; [reflexivity | rewrite IH; ring].
Qed.

Lemma zsum_permutation (l1 l2 : list Z) :
  Permutation l1 l2 -> zsum l1 = zsum l2.
Proof.
  induction 1; simpl; lia.
Qed.

Lemma fold_left_add_zsum {A : Type} (f : A -> Z) (l : list A) (a : Z) :
  fold_left (fun w e => w + f e) l a = a + zsum (map f l).
Proof.
  revert a; induction l as [|x l IH]; intros a; simpl.
  - ring.
  - rewrite IH. ring.
Qed.

Lemma zsum_map_bounds {A : Type} (f g : A -> Z) (l : list A) :
  (forall x, In x l -> 0 <= f x <= g x) ->
  0 <= zsum (map f l) <= zsum (map g l).
Proof.
  induction l as [|x l IH]; intros H; simpl; [lia|].
  pose proof (H x (or_introl eq_refl)).
  assert (0 <= zsum (map f l) <= zsum (map g l)) by (apply IH; intros; apply H; now right).
  lia.
Qed.

Lemma zsum_map_ext_in {A : Type} (f g : A -> Z) (l : list A) :
  (forall x, In x l -> f x = g x) -> zsum (map f l) = zsum (map g l).
Proof.
  intros H. f_equal. now apply map_ext_in.
Qed.

(** A sum only sees the elements where the summand is not zero. *)
Lemma zsum_map_filter {A : Type} (f : A -> Z) (p : A -> bool) (l : list A) :
  (forall x, In x l -> p x = false -> f x = 0) ->
  zsum (map f l) = zsum (map f (filter p l)).
Proof.
  induction l as [|x l IH]; intros H; simpl; [reflexivity|].
  rewrite IH by (intros; apply H; [now right | assumption]).
  destruct (p x) eqn:E; simpl; [reflexivity|].
  rewrite (H x (or_introl eq_refl) E). ring.
Qed.

Lemma zsum_map_support {A : Type} (eq_dec : forall a b : A, {a = b} + {a <> b})
      (f : A -> Z) (l1 l2 : list A) :
  NoDup l1 -> NoDup l2 ->
  (forall x, In x l1 -> ~ In x l2 -> f x = 0) ->
  (forall x, In x l2 -> ~ In x l1 -> f x = 0) ->
  zsum (map f l1) = zsum (map f l2).
Proof.
  intros N1 N2 H12 H21.
  set (mem := fun (l : list A) (x : A) => if in_dec eq_dec x l then true else false).
  assert (Hmem : forall l x, mem l x = true <-> In x l).
  { intros l x; unfold mem; destruct (in_dec eq_dec x l); split; intros; auto; discriminate. }
  rewrite (zsum_map_filter f (mem l2) l1).
  2:{ intros x Hx Hp. apply H12; [assumption|]. intros Hin. apply Hmem in Hin. congruence. }
  rewrite (zsum_map_filter f (mem l1) l2).
  2:{ intros x Hx Hp. apply H21; [assumption|]. intros Hin. apply Hmem in Hin. congruence. }
  apply zsum_permutation, Permutation_map, NoDup_Permutation.
  - now apply NoDup_filter.
  - now apply NoDup_filter.
  - intros x. rewrite !filter_In, !Hmem. tauto.
Qed.

(** ** Facts about [Map] *)

Section JsMapFacts.
Context {K : Type}.
Variable keqb : K -> K -> bool.
Hypothesis keqb_eq : forall a b, keqb a b = true <-> a = b.

Local Abbreviation get := (Js.get (V:=Z) keqb).
Local Abbreviation set := (Js.set (V:=Z) keqb).
Local Abbreviation get_or0 := (Js.get_or0 keqb).

Lemma keqb_refl (k : K) : keqb k k = true.
Proof. now apply keqb_eq. Qed.

Lemma keqb_neq (a b : K) : a <> b -> keqb a b = false.
Proof.
  intros H. destruct (keqb a b) eqn:E; [|reflexivity].
  apply keqb_eq in E. contradiction.
Qed.

Lemma get_none_iff (m : Js.t) (k : K) :
  get m k = None <-> ~ In k (Js.keys m).
Proof.
  induction m as [|[k' v] m IH]; simpl.
  - tauto.
  - destruct (keqb k k') eqn:E.
    + apply keqb_eq in E. subst. split; [discriminate | intros H; exfalso; apply H; now left].
    + rewrite IH. split.
      * intros H [H1|H1]; [|auto]. subst. rewrite keqb_refl in E. discriminate.
      * intros H H1. apply H. now right.
Qed.

Lemma get_in (m : Js.t) (k : K) (v : Z) :
  get m k = Some v -> In (k, v) m.
Proof.
  induction m as [|[k' v'] m IH]; simpl; [discriminate|].
  destruct (keqb k k') eqn:E.
  - apply keqb_eq in E. subst. intros [= ->]. now left.
  - intros H. right. now apply IH.
Qed.

Lemma in_get (m : Js.t) (k : K) (v : Z) :
  NoDup (Js.keys m) -> In (k, v) m -> get m k = Some v.
Proof.
  induction m as [|[k' v'] m IH]; simpl; [tauto|].
  intros N [H|H]; inversion N as [|? ? Hn N']; subst.
  - injection H as -> ->. now rewrite keqb_refl.
  - destruct (keqb k k') eqn:E.
    + apply keqb_eq in E. subst. exfalso. apply Hn.
      change k' with (fst (k', v)). now apply in_map.
    + now apply IH.
Qed.

Lemma keys_set (m : Js.t) (k : K) (v : Z) :
  Js.keys (set m k v) =
    match get m k with
    | Some _ => Js.keys m
    | None => Js.keys m ++ [k]
    end.
Proof.
  unfold Js.keys.
  induction m as [|[k' v'] m IH]; simpl; [reflexivity|].
  destruct (keqb k k') eqn:E; simpl; [reflexivity|].
  rewrite IH. now destruct (get m k).
Qed.

Lemma NoDup_keys_set (m : Js.t) (k : K) (v : Z) :
  NoDup (Js.keys m) -> NoDup (Js.keys (set m k v)).
Proof.
  intros N. rewrite keys_set. destruct (get m k) eqn:E; [assumption|].
  apply get_none_iff in E.
  apply NoDup_rev in N. rewrite <- (rev_involutive (Js.keys m ++ [k])).
  apply NoDup_rev. rewrite rev_app_distr. simpl. constructor; [|assumption].
  now rewrite <- in_rev.
Qed.

Lemma get_set_same (m : Js.t) (k : K) (v : Z) : get (set m k v) k = Some v.
Proof.
  induction m as [|[k' v'] m IH]; simpl.
  - now rewrite keqb_refl.
  - destruct (keqb k k') eqn:E; simpl; rewrite E; [reflexivity | assumption].
Qed.

Lemma get_set_other (m : Js.t) (k k0 : K) (v : Z) :
  k0 <> k -> get (set m k v) k0 = get m k0.
Proof.
  intros Hne. induction m as [|[k' v'] m IH]; simpl.
  - now rewrite keqb_neq.
  - destruct (keqb k k') eqn:E; simpl.
    + apply keqb_eq in E. subst. now rewrite keqb_neq.
    + now rewrite IH.
Qed.

(** [set] changes the sum of the values by the difference at the key. *)
Lemma zsum_values_set (m : Js.t) (k : K) (v : Z) :
  zsum (Js.values (set m k v)) = zsum (Js.values m) - get_or0 m k + v.
Proof.
  unfold Js.get_or0, Js.values.
  induction m as [|[k' v'] m IH]; simpl; [ring|].
  destruct (keqb k k') eqn:E; simpl; [ring|].
  rewrite IH. ring.
Qed.

Lemma in_set (m : Js.t) (k : K) (v : Z) (e : K * Z) :
  In e (set m k v) -> In e m \/ e = (k, v).
Proof.
  induction m as [|[k' v'] m IH]; simpl.
  - intros [H|[]]; auto.
  - destruct (keqb k k') eqn:E; simpl.
    + apply keqb_eq in E. subst. intros [H|H]; auto.
    + intros [H|H]; auto. destruct (IH H); auto.
Qed.

Lemma get_or0_nonneg (m : Js.t) (k : K) :
  Js.positive_values m -> 0 <= get_or0 m k.
Proof.
  intros P. unfold Js.get_or0. destruct (get m k) eqn:E; [|lia].
  apply get_in in E. apply P in E. simpl in E. lia.
Qed.

Lemma get_or0_absent (m : Js.t) (k : K) :
  ~ In k (Js.keys m) -> get_or0 m k = 0.
Proof.
  intros H. apply get_none_iff in H. unfold Js.get_or0. now rewrite H.
Qed.

(** [m.set(k, (m.get(k) ?? 0) + 1)] *)
Lemma positive_values_incr (m : Js.t) (k : K) :
  Js.positive_values m -> Js.positive_values (set m k (get_or0 m k + 1)).
Proof.
  intros P e He. apply in_set in He. destruct He as [He| ->].
  - now apply P.
  - simpl. pose proof (get_or0_nonneg m k P). lia.
Qed.

Lemma zsum_values_incr (m : Js.t) (k : K) :
  zsum (Js.values (set m k (get_or0 m k + 1))) = zsum (Js.values m) + 1.
Proof. rewrite zsum_values_set. ring. Qed.

End JsMapFacts.

(** ** The scoring loop *)

Lemma bump_keys (m : Js.t) (k : Z) :
  NoDup (Js.keys m) -> NoDup (Js.keys (bump m k)).
Proof. apply NoDup_keys_set, Z.eqb_eq. Qed.

Lemma bump_positive (m : Js.t) (k : Z) :
  Js.positive_values m -> Js.positive_values (bump m k).
Proof. apply positive_values_incr, Z.eqb_eq. Qed.

Lemma bump_zsum (m : Js.t) (k : Z) :
  zsum (Js.values (bump m k)) = zsum (Js.values m) + 1.
Proof. apply zsum_values_incr. Qed.

Lemma tally_step_ok (secret guess : Code) (st : Tally) (i : nat) :
  tally_ok st -> tally_ok (tally_step secret guess st i).
Proof.
  intros [Hb Hs Hg Ps Pg]. unfold tally_step.
  destruct (code_get secret i =? code_get guess i); constructor; simpl;
    auto using bump_keys, bump_positive; lia.
Qed.

Lemma tally_from_ok (secret guess : Code) (idx : list nat) (st : Tally) :
  tally_ok st -> tally_ok (tally_from secret guess idx st).
Proof.
  revert st; induction idx as [|i idx IH]; intros st H; simpl; [assumption|].
  apply IH, tally_step_ok, H.
Qed.

(** Every position is counted once: as a black, or in [guessCounts]. *)
Lemma tally_from_total (secret guess : Code) (idx : list nat) (st : Tally) :
  let st' := tally_from secret guess idx st in
  t_black st' + zsum (Js.values (guessCounts st')) =
  t_black st + zsum (Js.values (guessCounts st)) + Z.of_nat (length idx).
Proof.
  revert st; induction idx as [|i idx IH]; intros st; cbv zeta.
  - simpl. ring.
  - change (tally_from secret guess (i :: idx) st)
      with (tally_from secret guess idx (tally_step secret guess st i)).
    rewrite IH. unfold tally_step.
    destruct (code_get secret i =? code_get guess i); cbn [t_black guessCounts length];
      rewrite ?bump_zsum; lia.
Qed.

Lemma tally_init_ok : tally_ok (mkTally 0 [] []).
Proof.
  constructor; simpl; try constructor; try lia; intros e [].
Qed.

Lemma tally_ok_final (secret guess : Code) : tally_ok (tally secret guess).
Proof. apply tally_from_ok, tally_init_ok. Qed.

Lemma tally_total (secret guess : Code) :
  t_black (tally secret guess) + zsum (Js.values (guessCounts (tally secret guess))) = 4.
Proof.
  unfold tally. rewrite (tally_from_total secret guess (seq 0 4)). reflexivity.
Qed.

(** [white] is a sum of minima, one per key of [guessCounts]. *)
Lemma white_of_zsum (sC gC : Js.t) :
  white_of sC gC =
  zsum (map (fun e => Z.min (Js.get_or0 Z.eqb sC (fst e)) (snd e)) gC).
Proof.
  unfold white_of. rewrite fold_left_add_zsum. ring.
Qed.

Lemma white_of_bounds (sC gC : Js.t) :
  Js.positive_values sC -> Js.positive_values gC ->
  0 <= white_of sC gC <= zsum (Js.values gC).
Proof.
  intros Ps Pg. rewrite white_of_zsum. unfold Js.values.
  apply zsum_map_bounds. intros e He.
  pose proof (Pg e He). pose proof (get_or0_nonneg Z.eqb Z.eqb_eq sC (fst e) Ps). lia.
Qed.

Lemma white_of_common (sC gC : Js.t) :
  NoDup (Js.keys gC) ->
  white_of sC gC = zsum (map (common sC gC) (Js.keys gC)).
Proof.
  intros N. rewrite white_of_zsum. unfold Js.keys. rewrite map_map.
  apply zsum_map_ext_in. intros [k v] He. unfold common, Js.get_or0. simpl.
  now rewrite (in_get Z.eqb Z.eqb_eq gC k v N He).
Qed.

Lemma common_comm (m1 m2 : Js.t) (k : Z) : common m1 m2 k = common m2 m1 k.
Proof. apply Z.min_comm. Qed.

Lemma common_absent_l (m1 m2 : Js.t) (k : Z) :
  Js.positive_values m2 -> ~ In k (Js.keys m1) -> common m1 m2 k = 0.
Proof.
  intros P H. unfold common. rewrite (get_or0_absent Z.eqb Z.eqb_eq m1 k H).
  pose proof (get_or0_nonneg Z.eqb Z.eqb_eq m2 k P). lia.
Qed.

(** The sum of minima does not care which tally drives the loop. *)
Lemma white_of_sym (m1 m2 : Js.t) :
  NoDup (Js.keys m1) -> NoDup (Js.keys m2) ->
  Js.positive_values m1 -> Js.positive_values m2 ->
  white_of m1 m2 = white_of m2 m1.
Proof.
  intros N1 N2 P1 P2.
  rewrite (white_of_common m1 m2 N2), (white_of_common m2 m1 N1).
  rewrite (zsum_map_ext_in (common m2 m1) (common m1 m2))
    by (intros; apply common_comm).
  apply (zsum_map_support Z.eq_dec); auto.
  - intros k _ H. now apply common_absent_l.
  - intros k _ H. rewrite common_comm. now apply common_absent_l.
Qed.

Lemma tally_step_swap (a b : Code) (st : Tally) (i : nat) :
  tally_step b a (swap_tally st) i = swap_tally (tally_step a b st i).
Proof.
  unfold tally_step. rewrite (Z.eqb_sym (code_get b i)).
  now destruct (code_get a i =? code_get b i).
Qed.

Lemma tally_from_swap (a b : Code) (idx : list nat) (st : Tally) :
  tally_from b a idx (swap_tally st) = swap_tally (tally_from a b idx st).
Proof.
  revert st; induction idx as [|i idx IH]; intros st; simpl; [reflexivity|].
  now rewrite tally_step_swap, IH.
Qed.

Lemma tally_swap (a b : Code) : tally b a = swap_tally (tally a b).
Proof. unfold tally. now rewrite <- tally_from_swap. Qed.

(** The blacks are the positions that agree. *)
Lemma tally_black (secret guess : Code) :
  t_black (tally secret guess) =
  b2z (peg0 secret =? peg0 guess) + b2z (peg1 secret =? peg1 guess)
  + b2z (peg2 secret =? peg2 guess) + b2z (peg3 secret =? peg3 guess).
Proof.
  unfold tally, tally_from, tally_step. simpl.
  destruct (peg0 secret =? peg0 guess), (peg1 secret =? peg1 guess),
    (peg2 secret =? peg2 guess), (peg3 secret =? peg3 guess); reflexivity.
Qed.

Lemma code_eq_iff (a b : Code) :
  a = b <-> peg0 a = peg0 b /\ peg1 a = peg1 b /\ peg2 a = peg2 b /\ peg3 a = peg3 b.
Proof.
  destruct a, b; simpl. split.
  - intros [= -> -> -> ->]. auto.
  - intros (-> & -> & -> & ->). reflexivity.
Qed.

(** C2: the black count of [feedbackFor] is at most 4, and it is 4 exactly
    when the secret and the guess are the same code. *)
Theorem feedbackFor_black_four (secret guess : Code) :
  black (feedbackFor secret guess) <= 4
  /\ (black (feedbackFor secret guess) = 4 <-> secret = guess).
Proof.
  unfold feedbackFor. cbn [black]. rewrite tally_black, code_eq_iff.
  destruct (Z.eqb_spec (peg0 secret) (peg0 guess)),
    (Z.eqb_spec (peg1 secret) (peg1 guess)),
    (Z.eqb_spec (peg2 secret) (peg2 guess)),
    (Z.eqb_spec (peg3 secret) (peg3 guess)); simpl; split; try lia;
    split; try (intros; discriminate); try tauto.
Qed.

(** C3: scoring is symmetric: exchanging secret and guess changes neither
    the black nor the white count. *)
Theorem feedbackFor_symmetric (a b : Code) :
  feedbackFor a b = feedbackFor b a
  /\ black (feedbackFor a b) = black (feedbackFor b a)
  /\ white (feedbackFor a b) = white (feedbackFor b a).
Proof.
  assert (E : feedbackFor a b = feedbackFor b a).
  { unfold feedbackFor. rewrite (tally_swap a b). cbn [swap_tally t_black secretCounts guessCounts].
    destruct (tally_ok_final a b) as [_ Ns Ng Ps Pg].
    f_equal. now apply white_of_sym. }
  now rewrite E.
Qed.

Lemma feedbackFor_range (secret guess : Code) :
  0 <= black (feedbackFor secret guess)
  /\ 0 <= white (feedbackFor secret guess)
  /\ black (feedbackFor secret guess) + white (feedbackFor secret guess) <= 4.
Proof.
  unfold feedbackFor. cbn [black white].
  destruct (tally_ok_final secret guess) as [Hb _ _ Ps Pg].
  pose proof (tally_total secret guess) as Ht.
  pose proof (white_of_bounds _ _ Ps Pg) as Hw.
  lia.
Qed.

(** C10: what [feedbackFor] returns always passes [isValidFeedback]: both
    counts are non-negative and together they do not exceed 4. *)
Theorem feedbackFor_valid (secret guess : Code) :
  isValidFeedback (feedbackFor secret guess) = true
  /\ 0 <= black (feedbackFor secret guess)
  /\ 0 <= white (feedbackFor secret guess)
  /\ black (feedbackFor secret guess) + white (feedbackFor secret guess) <= 4.
Proof.
  pose proof (feedbackFor_range secret guess) as R.
  split; [|exact R].
  unfold isValidFeedback.
  set (bl := black (feedbackFor secret guess)) in *.
  set (wh := white (feedbackFor secret guess)) in *.
  assert (E1 : (bl <? 0) || (wh <? 0) = false)
    by (apply orb_false_intro; apply Z.ltb_ge; lia).
  assert (E2 : (bl >? 4) || (wh >? 4) = false)
    by (apply orb_false_intro; rewrite Z.gtb_ltb; apply Z.ltb_ge; lia).
  assert (E3 : (bl + wh >? 4) = false)
    by (rewrite Z.gtb_ltb; apply Z.ltb_ge; lia).
  now rewrite E1, E2, E3.
Qed.

(** ** The code space *)

Lemma is_peg_in (p : Z) : is_peg p = true <-> In p all_pegs.
Proof.
  unfold is_peg, all_pegs. rewrite andb_true_iff, Z.leb_le, Z.leb_le. simpl.
  split; [intros H | intros H; decompose [or] H; subst; try lia; tauto].
  assert (p = 1 \/ p = 2 \/ p = 3 \/ p = 4 \/ p = 5 \/ p = 6) as C by lia.
  decompose [or] C; subst; tauto.
Qed.

(** The four loops visit the pegs in order, the outermost slowest. *)
Lemma generateAllCodes_flat :
  generateAllCodes =
  flat_map (fun a => flat_map (fun b => flat_map (fun c =>
    map (mkCode a b c) all_pegs) all_pegs) all_pegs) all_pegs.
Proof. vm_compute. reflexivity. Qed.

Lemma well_typed_iff (c : Code) :
  well_typed c = true <->
  In (peg0 c) all_pegs /\ In (peg1 c) all_pegs /\ In (peg2 c) all_pegs /\ In (peg3 c) all_pegs.
Proof.
  unfold well_typed. rewrite !andb_true_iff, !is_peg_in. tauto.
Qed.

Lemma in_all_codes (c : Code) : In c ALL_CODES <-> well_typed c = true.
Proof.
  unfold ALL_CODES. rewrite generateAllCodes_flat, well_typed_iff. split.
  - intros H.
    apply in_flat_map in H. destruct H as (a & Ha & H).
    apply in_flat_map in H. destruct H as (b & Hb & H).
    apply in_flat_map in H. destruct H as (c' & Hc & H).
    apply in_map_iff in H. destruct H as (d & <- & Hd).
    cbn [peg0 peg1 peg2 peg3]. tauto.
  - destruct c as [a b c' d]. cbn [peg0 peg1 peg2 peg3]. intros (Ha & Hb & Hc & Hd).
    apply in_flat_map. exists a. split; [assumption|].
    apply in_flat_map. exists b. split; [assumption|].
    apply in_flat_map. exists c'. split; [assumption|].
    apply in_map_iff. exists d. split; [reflexivity | assumption].
Qed.

Lemma code_ltb_irrefl (c : Code) : code_ltb c c = false.
Proof. unfold code_ltb. now rewrite !Z.ltb_irrefl. Qed.

Lemma strongly_sortedb_sound (l : list Code) :
  strongly_sortedb l = true -> StronglySorted code_lt l.
Proof.
  induction l as [|c l IH]; simpl; intros H; constructor.
  - apply IH. now apply andb_true_iff in H.
  - apply andb_true_iff in H. destruct H as [H _].
    apply Forall_forall. intros x Hx. unfold code_lt.
    now apply (proj1 (forallb_forall _ _) H).
Qed.

Lemma strongly_sorted_nodup (l : list Code) :
  StronglySorted code_lt l -> NoDup l.
Proof.
  induction 1 as [|c l Hs IH Hf]; constructor; [|assumption].
  intros Hin. rewrite Forall_forall in Hf. specialize (Hf c Hin).
  unfold code_lt in Hf. rewrite code_ltb_irrefl in Hf. discriminate.
Qed.

Lemma all_codes_sorted : StronglySorted code_lt ALL_CODES.
Proof. apply strongly_sortedb_sound. vm_compute. reflexivity. Qed.

Lemma all_codes_nodup : NoDup ALL_CODES.
Proof. apply strongly_sorted_nodup, all_codes_sorted. Qed.

(** C8: [generateAllCodes], and [ALL_CODES] built from it, is the list of
    the 1296 codes over the symbols 1..6: every such code and nothing else,
    none twice, in dictionary order with the first position varying
    slowest.  It is a fixed value, the same at every call. *)
Theorem generateAllCodes_enumerates :
  ALL_CODES = generateAllCodes
  /\ length generateAllCodes = 1296%nat
  /\ (forall c, In c generateAllCodes <-> well_typed c = true)
  /\ NoDup generateAllCodes
  /\ StronglySorted code_lt generateAllCodes
  /\ generateAllCodes = map code_at (seq 0 1296).
Proof.
  split; [reflexivity|].
  split; [vm_compute; reflexivity|].
  split; [exact in_all_codes|].
  split; [exact all_codes_nodup|].
  split; [exact all_codes_sorted|].
  vm_compute. reflexivity.
Qed.

(** ** The constraint filter *)

Lemma filterRemaining_app (h1 h2 : list Step) (U : list Code) :
  filterRemaining (h1 ++ h2) U = filterRemaining h2 (filterRemaining h1 U).
Proof. apply fold_left_app. Qed.

Lemma filterRemaining_in (steps : list Step) (U : list Code) (c : Code) :
  In c (filterRemaining steps U) <->
  In c U /\ forall st, In st steps -> consistent st c = true.
Proof.
  revert U; induction steps as [|st steps IH]; intros U; simpl.
  - split; [intros H; split; [assumption | intros ? []] | tauto].
  - rewrite IH, filter_In. split.
    + intros [[HU Hc] H]. split; [assumption|]. intros st' [<-|Hin]; auto.
    + intros [HU H]. split; [split|]; auto.
Qed.

(** C4: one more step can only remove candidates: whatever survives the
    longer history survives the shorter one. *)
Theorem filterRemaining_monotone (history : list Step) (step : Step)
        (U : list Code) (c : Code) :
  In c (filterRemaining (history ++ [step]) U) -> In c (filterRemaining history U).
Proof.
  rewrite filterRemaining_app. simpl. rewrite filter_In. tauto.
Qed.

Lemma filterRemaining_monotone_witness :
  In (mkCode 3 4 5 6)
     (filterRemaining ([] ++ [mkStep (mkCode 1 1 2 2) (mkFeedback 0 0)])
                      [mkCode 1 1 2 2; mkCode 3 4 5 6])
  /\ In (mkCode 3 4 5 6) (filterRemaining [] [mkCode 1 1 2 2; mkCode 3 4 5 6]).
Proof.
  assert (H : In (mkCode 3 4 5 6)
                (filterRemaining ([] ++ [mkStep (mkCode 1 1 2 2) (mkFeedback 0 0)])
                                 [mkCode 1 1 2 2; mkCode 3 4 5 6]))
    by (vm_compute; left; reflexivity).
  split; [exact H|].
  exact (filterRemaining_monotone [] (mkStep (mkCode 1 1 2 2) (mkFeedback 0 0))
           [mkCode 1 1 2 2; mkCode 3 4 5 6] (mkCode 3 4 5 6) H).
Defined.

Lemma consistent_scored (secret g : Code) :
  consistent (mkStep g (feedbackFor secret g)) secret = true.
Proof.
  unfold consistent. simpl. now rewrite !Z.eqb_refl.
Qed.

Lemma scored_history_keeps (secret : Code) (guesses U : list Code) :
  In secret U -> In secret (filterRemaining (scored_history secret guesses) U).
Proof.
  intros HU. apply filterRemaining_in. split; [assumption|].
  intros st Hst. unfold scored_history in Hst. apply in_map_iff in Hst.
  destruct Hst as (g & <- & _). apply consistent_scored.
Qed.

(** C5: a history obtained by scoring a secret against each guess never
    rules that secret out of the full code space. *)
Theorem filterRemaining_self_consistent (secret : Code) (guesses : list Code) :
  well_typed secret = true ->
  In secret (filterRemaining (scored_history secret guesses) ALL_CODES).
Proof.
  intros H. apply scored_history_keeps, in_all_codes, H.
Qed.

Lemma filterRemaining_self_consistent_witness :
  In (mkCode 3 4 5 6)
     (filterRemaining (scored_history (mkCode 3 4 5 6) [mkCode 1 1 2 2; mkCode 3 3 4 5])
                      ALL_CODES).
Proof.
  apply (filterRemaining_self_consistent (mkCode 3 4 5 6)
           [mkCode 1 1 2 2; mkCode 3 3 4 5]).
  vm_compute. reflexivity.
Defined.

(** C6: the secret 3456 scores (0, 0) against the first guess 1122, and
    that single step leaves of the 1296 codes exactly those that use
    neither 1 nor 2: 256 codes. *)
Theorem first_step_no_match_scenario :
  feedbackFor (mkCode 3 4 5 6) (mkCode 1 1 2 2) = mkFeedback 0 0
  /\ length ALL_CODES = 1296%nat
  /\ (forall c, In c (filterRemaining [mkStep (mkCode 1 1 2 2) (mkFeedback 0 0)] ALL_CODES)
                <-> well_typed c = true /\ avoids_1_2 c = true)
  /\ NoDup (filterRemaining [mkStep (mkCode 1 1 2 2) (mkFeedback 0 0)] ALL_CODES)
  /\ length (filterRemaining [mkStep (mkCode 1 1 2 2) (mkFeedback 0 0)] ALL_CODES) = 256%nat.
Proof.
  assert (E : filterRemaining [mkStep (mkCode 1 1 2 2) (mkFeedback 0 0)] ALL_CODES
              = filter avoids_1_2 ALL_CODES) by (vm_compute; reflexivity).
  split; [vm_compute; reflexivity|].
  split; [vm_compute; reflexivity|].
  split; [|split].
  - intros c. rewrite E, filter_In, in_all_codes. tauto.
  - rewrite E. apply NoDup_filter, all_codes_nodup.
  - vm_compute. reflexivity.
Qed.

(** ** The degenerate cases of the recommender *)

(** C7: with nothing left the recommender answers the fixed code 1122,
    which is also [firstGuess]; with one code left it answers that code;
    in both cases whatever [allGuesses] is. *)
Theorem recommendNextGuess_degenerate (allGuesses : list Code) (only : Code) :
  recommendNextGuess [] allGuesses = mkCode 1 1 2 2
  /\ recommendNextGuess [] allGuesses = firstGuess
  /\ recommendNextGuess [only] allGuesses = only.
Proof. repeat split. Qed.

(** ** Trimming *)

Lemma trim_start_spaces (pre r : Js.str) :
  all_space pre -> Js.trim_start (pre ++ r) = Js.trim_start r.
Proof.
  induction 1 as [|u pre Hu _ IH]; simpl; [reflexivity|].
  now rewrite Hu.
Qed.

Lemma trim_start_no_space (t r : Js.str) :
  no_space t -> t <> [] -> Js.trim_start (t ++ r) = t ++ r.
Proof.
  intros H Hne. destruct H as [|u t Hu _]; [contradiction|].
  simpl. now rewrite Hu.
Qed.

Lemma all_space_rev (s : Js.str) : all_space s -> all_space (rev s).
Proof. apply Forall_rev. Qed.

Lemma no_space_rev (s : Js.str) : no_space s -> no_space (rev s).
Proof. apply Forall_rev. Qed.

(** Trimming takes white space off both ends and nothing else. *)
Lemma trim_framed (pre t post : Js.str) :
  all_space pre -> all_space post -> no_space t ->
  Js.trim (pre ++ t ++ post) = t.
Proof.
  intros Hpre Hpost Ht. unfold Js.trim, Js.trim_end.
  rewrite trim_start_spaces by assumption.
  destruct t as [|u t].
  - simpl. rewrite <- (app_nil_r post), trim_start_spaces by assumption.
    reflexivity.
  - rewrite trim_start_no_space by (assumption || discriminate).
    rewrite rev_app_distr, trim_start_spaces by now apply all_space_rev.
    assert (Hr : rev (u :: t) <> []).
    { intros E. apply (f_equal (@length N)) in E. rewrite length_rev in E. discriminate. }
    rewrite <- (app_nil_r (rev (u :: t))).
    rewrite trim_start_no_space by (auto using no_space_rev).
    rewrite app_nil_r. apply rev_involutive.
Qed.

Lemma trim_start_split (s : Js.str) :
  exists pre, s = pre ++ Js.trim_start s /\ all_space pre.
Proof.
  induction s as [|u s (pre & E & H)]; simpl.
  - exists []. split; [reflexivity | constructor].
  - destruct (Js.is_space u) eqn:Hu.
    + exists (u :: pre). split; [simpl; now f_equal | now constructor].
    + exists []. split; [reflexivity | constructor].
Qed.

Lemma trim_split (s : Js.str) :
  exists pre post, s = pre ++ Js.trim s ++ post /\ all_space pre /\ all_space post.
Proof.
  destruct (trim_start_split s) as (pre & E & Hpre).
  destruct (trim_start_split (rev (Js.trim_start s))) as (tsop & E' & Hpost).
  exists pre, (rev tsop). split; [|split; [assumption | now apply all_space_rev]].
  unfold Js.trim, Js.trim_end. rewrite <- rev_app_distr, <- E', rev_involutive.
  exact E.
Qed.

Lemma digit_not_space (u : N) : (49 <= u <= 54)%N -> Js.is_space u = false.
Proof.
  intros H.
  assert (u = 49 \/ u = 50 \/ u = 51 \/ u = 52 \/ u = 53 \/ u = 54)%N as C by lia.
  decompose [or] C; subst; reflexivity.
Qed.

Lemma four_digits_no_space (t : Js.str) : four_digits t -> no_space t.
Proof.
  intros [_ H]. unfold no_space. rewrite Forall_forall in *.
  intros u Hu. apply digit_not_space, H, Hu.
Qed.

(** The trimmed form is four digits exactly when the string is four
    digits between two runs of white space. *)
Lemma four_digits_trim_iff (s : Js.str) :
  four_digits (Js.trim s) <->
  exists pre t post,
    s = pre ++ t ++ post /\ all_space pre /\ all_space post /\ four_digits t.
Proof.
  split.
  - intros H. destruct (trim_split s) as (pre & post & E & Hpre & Hpost).
    exists pre, (Js.trim s), post. auto.
  - intros (pre & t & post & -> & Hpre & Hpost & Ht).
    rewrite trim_framed; auto using four_digits_no_space.
Qed.

(** ** Parsing and printing codes *)

Lemma is_digit_1_6_iff (u : N) : is_digit_1_6 u = true <-> (49 <= u <= 54)%N.
Proof.
  unfold is_digit_1_6. now rewrite andb_true_iff, !N.leb_le.
Qed.

Lemma code_regex_test_iff (t : Js.str) : code_regex_test t = true <-> four_digits t.
Proof.
  unfold code_regex_test, four_digits. split.
  - destruct t as [|a [|b [|c [|d [|e t]]]]]; simpl;
      repeat match goal with
             | |- context [is_digit_1_6 ?u] => destruct (is_digit_1_6 u) eqn:?
             end; try discriminate.
    intros _. split; [reflexivity|].
    repeat constructor; now apply is_digit_1_6_iff.
  - intros [Hlen Hall].
    destruct t as [|a [|b [|c [|d [|e t]]]]]; simpl in Hlen; try discriminate.
    repeat match goal with
           | H : Forall _ (_ :: _) |- _ => inversion H; subst; clear H
           end.
    simpl.
    repeat match goal with
           | H : (49 <= ?u <= 54)%N |- _ => apply is_digit_1_6_iff in H; rewrite H; clear H
           end.
    reflexivity.
Qed.

Lemma code_eqb_eq (a b : Code) : code_eqb a b = true <-> a = b.
Proof.
  unfold code_eqb. rewrite !andb_true_iff, !Z.eqb_eq, code_eq_iff. tauto.
Qed.

Lemma all_codes_parse_back : forallb parses_back ALL_CODES = true.
Proof. vm_compute. reflexivity. Qed.

Lemma parse_codeToString (c : Code) :
  well_typed c = true -> parseCodeString (codeToString c) = Some c.
Proof.
  intros H. apply in_all_codes in H.
  pose proof (proj1 (forallb_forall _ _) all_codes_parse_back c H) as P.
  unfold parses_back in P.
  destruct (parseCodeString (codeToString c)) as [c'|]; [|discriminate].
  apply code_eqb_eq in P. now subst.
Qed.

Lemma parse_some_iff (s : Js.str) :
  (exists c, parseCodeString s = Some c) <-> four_digits (Js.trim s).
Proof.
  rewrite <- code_regex_test_iff. unfold parseCodeString.
  destruct (code_regex_test (Js.trim s)); simpl; split.
  - reflexivity.
  - intros _. eexists. reflexivity.
  - intros [c H]. discriminate.
  - discriminate.
Qed.

Lemma digit_prints_back (u : N) :
  (49 <= u <= 54)%N ->
  is_peg (Js.number_of_digit u) = true
  /\ Js.string_of_number (Js.number_of_digit u) = [u].
Proof.
  intros H.
  assert (u = 49 \/ u = 50 \/ u = 51 \/ u = 52 \/ u = 53 \/ u = 54)%N as C by lia.
  decompose [or] C; subst; split; reflexivity.
Qed.

(** What an accepted string parses to: a well typed code that prints as
    the trimmed string. *)
Lemma parse_some_sound (s : Js.str) (c : Code) :
  parseCodeString s = Some c ->
  well_typed c = true /\ codeToString c = Js.trim s.
Proof.
  unfold parseCodeString.
  destruct (code_regex_test (Js.trim s)) eqn:E; simpl; [|discriminate].
  apply code_regex_test_iff in E. destruct E as [Hlen Hall].
  destruct (Js.trim s) as [|a [|b [|c0 [|d [|e t]]]]]; simpl in Hlen; try discriminate.
  intros [= <-].
  repeat match goal with
         | H : Forall _ (_ :: _) |- _ => inversion H; subst; clear H
         end.
  repeat match goal with
         | H : (49 <= ?u <= 54)%N |- _ => apply digit_prints_back in H; destruct H
         end.
  unfold well_typed, codeToString, Js.join_numbers, code_elems.
  cbn [map nth peg0 peg1 peg2 peg3 concat].
  repeat match goal with
         | H : is_peg _ = true |- _ => rewrite H; clear H
         | H : Js.string_of_number _ = _ |- _ => rewrite H; clear H
         end.
  split; reflexivity.
Qed.

(** C9: [parseCodeString] accepts a string exactly when its trimmed form
    is four characters, each one of '1'..'6' (that is, when the string is
    four such characters between two runs of white space), and answers
    [null] for every other string; what it accepts it turns into the code
    that prints as the trimmed string; and it undoes [codeToString] on
    every code. *)
Theorem parseCodeString_accepts_exactly :
  (forall s, (exists c, parseCodeString s = Some c) <-> four_digits (Js.trim s))
  /\ (forall s, parseCodeString s = None <-> ~ four_digits (Js.trim s))
  /\ (forall s, (exists c, parseCodeString s = Some c) <->
                exists pre t post,
                  s = pre ++ t ++ post /\ all_space pre /\ all_space post
                  /\ four_digits t)
  /\ (forall s c, parseCodeString s = Some c ->
                  well_typed c = true /\ codeToString c = Js.trim s)
  /\ (forall c, well_typed c = true -> parseCodeString (codeToString c) = Some c).
Proof.
  split; [exact parse_some_iff|].
  split; [|split; [|split; [exact parse_some_sound | exact parse_codeToString]]].
  - intros s. rewrite <- parse_some_iff.
    destruct (parseCodeString s) as [c|]; split.
    + discriminate.
    + intros H. exfalso. apply H. now exists c.
    + intros _ [c H]. discriminate.
    + reflexivity.
  - intros s. rewrite parse_some_iff. apply four_digits_trim_iff.
Qed.

Lemma parseCodeString_accepts_exactly_witness :
  well_typed (mkCode 1 2 3 4) = true
  /\ parseCodeString (codeToString (mkCode 1 2 3 4)) = Some (mkCode 1 2 3 4).
Proof.
  split; [reflexivity|].
  apply (proj2 (proj2 (proj2 (proj2 parseCodeString_accepts_exactly))) (mkCode 1 2 3 4)).
  reflexivity.
Defined.

(** ** The scan without the early exit *)

Lemma str_ltb_irrefl (a : Js.str) : Js.str_ltb a a = false.
Proof.
  induction a as [|x a IH]; simpl; [reflexivity|].
  now rewrite N.ltb_irrefl.
Qed.

Lemma str_ltb_trans (a b c : Js.str) :
  Js.str_ltb a b = true -> Js.str_ltb b c = true -> Js.str_ltb a c = true.
Proof.
  revert b c; induction a as [|x a IH]; intros [|y b] [|z c]; simpl;
    try discriminate; try reflexivity.
  destruct (N.ltb_spec x y), (N.ltb_spec y x), (N.ltb_spec y z), (N.ltb_spec z y),
    (N.ltb_spec x z), (N.ltb_spec z x); try discriminate; try reflexivity; try lia.
  apply IH.
Qed.

Lemma no_worse_refl (remaining : list Code) (g : Code) : no_worse remaining g g.
Proof.
  right. split; [reflexivity|]. right. split; [reflexivity | apply str_ltb_irrefl].
Qed.

Lemma consider_unpruned_unfold (remaining : list Code) (b : Best) (g : Code) :
  consider_unpruned remaining (Js.set_of_list (map codeToString remaining)) b g =
  if Js.ltb_num (full_score remaining g) (bestScore b) then
    mkBest g (Js.Fin (full_score remaining g)) (in_remaining_set remaining g)
  else if Js.eqb_num (full_score remaining g) (bestScore b) then
    if in_remaining_set remaining g && negb (bestIsRemaining b) then
      mkBest g (bestScore b) true
    else if Bool.eqb (in_remaining_set remaining g) (bestIsRemaining b) then
      if Js.str_ltb (codeToString g) (codeToString (bestGuess b)) then
        mkBest g (bestScore b) (bestIsRemaining b)
      else b
    else b
  else b.
Proof. reflexivity. Qed.

(** A guess that takes the place of the best one is better than all that
    the best one was no worse than. *)
Lemma no_worse_replace (remaining : list Code) (a g g' : Code) :
  no_worse remaining a g' ->
  (full_score remaining g < full_score remaining a
   \/ (full_score remaining g = full_score remaining a
       /\ in_remaining_set remaining g = true /\ in_remaining_set remaining a = false)
   \/ (full_score remaining g = full_score remaining a
       /\ in_remaining_set remaining g = in_remaining_set remaining a
       /\ Js.str_ltb (codeToString g) (codeToString a) = true)) ->
  no_worse remaining g g'.
Proof.
  unfold no_worse.
  intros [Hlt | [Heq [[Ha Hg'] | [Hm Hs]]]] [Hr | [(Hw & Hg & Ha') | (Hw & Hg & Hstr)]];
    try (left; lia); try congruence.
  - right. split; [lia|]. left. split; congruence.
  - right. split; [lia|]. left. split; congruence.
  - right. split; [lia|]. right. split; [congruence|].
    destruct (Js.str_ltb (codeToString g') (codeToString g)) eqn:E; [|reflexivity].
    rewrite (str_ltb_trans _ _ _ E Hstr) in Hs. discriminate.
Qed.

Lemma consider_unpruned_inv (remaining seen : list Code) (b : Best) (g : Code) :
  best_inv remaining seen b ->
  best_inv remaining (seen ++ [g])
           (consider_unpruned remaining (Js.set_of_list (map codeToString remaining)) b g).
Proof.
  intros [Hs Hm Hin Hl]. rewrite consider_unpruned_unfold.
  assert (Hnew : forall gb,
             (forall g', In g' seen -> no_worse remaining gb g') ->
             no_worse remaining gb g ->
             forall g', In g' (seen ++ [g]) -> no_worse remaining gb g').
  { intros gb H1 H2 g' Hg'. apply in_app_or in Hg'.
    destruct Hg' as [Hg'|[<-|[]]]; auto. }
  assert (Hrep : (full_score remaining g < full_score remaining (bestGuess b)
     \/ (full_score remaining g = full_score remaining (bestGuess b)
         /\ in_remaining_set remaining g = true
         /\ in_remaining_set remaining (bestGuess b) = false)
     \/ (full_score remaining g = full_score remaining (bestGuess b)
         /\ in_remaining_set remaining g = in_remaining_set remaining (bestGuess b)
         /\ Js.str_ltb (codeToString g) (codeToString (bestGuess b)) = true)) ->
     forall g', In g' (seen ++ [g]) -> no_worse remaining g g').
  { intros H. apply Hnew; [|apply no_worse_refl].
    intros g' Hg'. apply (no_worse_replace remaining (bestGuess b)); auto. }
  assert (Hlast : In g (seen ++ [g])) by (apply in_or_app; right; now left).
  assert (Hold : In (bestGuess b) (seen ++ [g])) by (apply in_or_app; now left).
  rewrite Hs. cbn [Js.ltb_num Js.eqb_num].
  destruct (Z.ltb_spec (full_score remaining g) (full_score remaining (bestGuess b))) as [Hlt|Hge].
  { constructor; cbn [bestGuess bestScore bestIsRemaining]; auto. }
  destruct (Z.eqb_spec (full_score remaining g) (full_score remaining (bestGuess b))) as [Heq|Hne].
  2:{ constructor; auto. apply Hnew; auto. left. lia. }
  rewrite Hm.
  destruct (in_remaining_set remaining g) eqn:Eg,
           (in_remaining_set remaining (bestGuess b)) eqn:Eb; cbn [andb negb Bool.eqb].
  - destruct (Js.str_ltb (codeToString g) (codeToString (bestGuess b))) eqn:Es.
    + constructor; cbn [bestGuess bestScore bestIsRemaining]; auto.
      * now rewrite Heq.
      * apply Hrep. right. right. repeat split; congruence.
    + constructor; auto; try congruence.
      apply Hnew; auto. right. split; [lia|]. right. split; congruence.
  - constructor; cbn [bestGuess bestScore bestIsRemaining]; auto.
    + now rewrite Heq.
    + apply Hrep. right. left. repeat split; congruence.
  - constructor; auto; try congruence.
    apply Hnew; auto. right. split; [lia|]. left. split; congruence.
  - destruct (Js.str_ltb (codeToString g) (codeToString (bestGuess b))) eqn:Es.
    + constructor; cbn [bestGuess bestScore bestIsRemaining]; auto.
      * now rewrite Heq.
      * apply Hrep. right. right. repeat split; congruence.
    + constructor; auto; try congruence.
      apply Hnew; auto. right. split; [lia|]. right. split; congruence.
Qed.

Lemma fold_consider_unpruned_inv (remaining seen rest : list Code) (b : Best) :
  best_inv remaining seen b ->
  best_inv remaining (seen ++ rest)
    (fold_left (consider_unpruned remaining (Js.set_of_list (map codeToString remaining)))
               rest b).
Proof.
  revert seen b; induction rest as [|g rest IH]; intros seen b H; simpl.
  - now rewrite app_nil_r.
  - replace (seen ++ g :: rest) with ((seen ++ [g]) ++ rest)
      by (rewrite <- app_assoc; reflexivity).
    apply IH, consider_unpruned_inv, H.
Qed.

Lemma first_consider_unpruned_inv (remaining : list Code) (g0 : Code) (b0 : Code) :
  best_inv remaining [g0]
    (consider_unpruned remaining (Js.set_of_list (map codeToString remaining))
                       (mkBest b0 Js.Infinity false) g0).
Proof.
  rewrite consider_unpruned_unfold. cbn [bestScore Js.ltb_num].
  constructor; cbn [bestGuess bestScore bestIsRemaining]; auto.
  - now left.
  - intros g [<-|[]]. apply no_worse_refl.
Qed.

(** The scan without early exit ends on a guess no worse than any other. *)
Lemma recommendNextGuess_unpruned_least (r1 r2 : Code) (rest : list Code)
      (g0 : Code) (guesses : list Code) :
  let remaining := r1 :: r2 :: rest in
  let chosen := recommendNextGuess_unpruned remaining (g0 :: guesses) in
  In chosen (g0 :: guesses)
  /\ forall g, In g (g0 :: guesses) -> no_worse remaining chosen g.
Proof.
  cbv zeta. unfold recommendNextGuess_unpruned.
  change (fold_left ?f (g0 :: guesses) ?b) with (fold_left f guesses (f b g0)).
  pose proof (fold_consider_unpruned_inv (r1 :: r2 :: rest) [g0] guesses _
                (first_consider_unpruned_inv (r1 :: r2 :: rest) g0 (mkCode 1 1 2 2))) as H.
  destruct H as [_ _ Hin Hl]. split; assumption.
Qed.

(** ** Counting with a [Map] *)

Lemma zmax_nonneg (l : list Z) : 0 <= zmax l.
Proof. induction l; simpl; lia. Qed.

Lemma zmax_in (l : list Z) (x : Z) : In x l -> x <= zmax l.
Proof.
  induction l as [|y l IH]; simpl; [tauto|].
  intros [->|H]; [|apply IH in H]; lia.
Qed.

Lemma zmax_le (l : list Z) (b : Z) :
  0 <= b -> (forall x, In x l -> x <= b) -> zmax l <= b.
Proof.
  intros Hb. induction l as [|y l IH]; simpl; intros H; [assumption|].
  apply Z.max_lub; [apply H; now left | apply IH; intros; apply H; now right].
Qed.

Lemma zmax_incl (l1 l2 : list Z) : incl l1 l2 -> zmax l1 <= zmax l2.
Proof.
  intros H. apply zmax_le; [apply zmax_nonneg|].
  intros x Hx. apply zmax_in, H, Hx.
Qed.

Lemma scan_all_from (l : list Z) (a : Z) :
  0 <= a ->
  fold_left (fun w v => if v >? w then v else w) l a = Z.max a (zmax l).
Proof.
  revert a; induction l as [|v l IH]; intros a Ha; simpl.
  - lia.
  - rewrite Z.gtb_ltb. destruct (Z.ltb_spec a v); rewrite IH; lia.
Qed.

Lemma scan_all_zmax (l : list Z) : scan_all l = zmax l.
Proof.
  unfold scan_all. rewrite scan_all_from by lia. pose proof (zmax_nonneg l). lia.
Qed.

Section CountingFacts.
Context {A K : Type}.
Variable keqb : K -> K -> bool.
Hypothesis keqb_eq : forall a b, keqb a b = true <-> a = b.
Variable key : A -> K.

Lemma get_or0_set (m : Js.t) (k k0 : K) (v : Z) :
  Js.get_or0 keqb (Js.set keqb m k v) k0 =
  if keqb k k0 then v else Js.get_or0 keqb m k0.
Proof.
  unfold Js.get_or0. destruct (keqb k k0) eqn:E.
  - apply keqb_eq in E. subst. now rewrite (get_set_same keqb keqb_eq).
  - rewrite (get_set_other keqb keqb_eq); [reflexivity|].
    intros ->. rewrite (keqb_refl keqb keqb_eq) in E. discriminate.
Qed.

Lemma count_into_cons (x : A) (l : list A) (m0 : Js.t) :
  count_into keqb key (x :: l) m0 =
  count_into keqb key l
    (Js.set keqb m0 (key x) (Js.get_or0 keqb m0 (key x) + 1)).
Proof. reflexivity. Qed.

Lemma count_into_get (l : list A) (m0 : Js.t) (k : K) :
  Js.get_or0 keqb (count_into keqb key l m0) k =
  Js.get_or0 keqb m0 k + occurrences keqb key l k.
Proof.
  unfold occurrences.
  revert m0; induction l as [|x l IH]; intros m0.
  - simpl. ring.
  - rewrite count_into_cons, IH, get_or0_set. simpl.
    destruct (keqb (key x) k) eqn:E; simpl length.
    + apply keqb_eq in E. subst. lia.
    + lia.
Qed.

Lemma count_into_nodup (l : list A) (m0 : Js.t) :
  NoDup (Js.keys m0) -> NoDup (Js.keys (count_into keqb key l m0)).
Proof.
  revert m0; induction l as [|x l IH]; intros m0 H; [assumption|].
  rewrite count_into_cons. apply IH, (NoDup_keys_set keqb keqb_eq), H.
Qed.

Lemma in_keys_set (m : Js.t) (k k0 : K) (v : Z) :
  In k0 (Js.keys (Js.set keqb m k v)) <-> In k0 (Js.keys m) \/ k0 = k.
Proof.
  rewrite (keys_set keqb). destruct (Js.get keqb m k) as [v0|] eqn:E.
  - split; [tauto|]. intros [H| ->]; [assumption|].
    apply (get_in keqb keqb_eq) in E.
    change k with (fst (k, v0)). now apply in_map.
  - rewrite in_app_iff. simpl. intuition.
Qed.

Lemma count_into_keys (l : list A) (m0 : Js.t) (k : K) :
  In k (Js.keys (count_into keqb key l m0)) <->
  In k (Js.keys m0) \/ In k (map key l).
Proof.
  revert m0; induction l as [|x l IH]; intros m0.
  - simpl. tauto.
  - rewrite count_into_cons, IH, in_keys_set. simpl. intuition.
Qed.

Lemma values_by_get (m : Js.t) :
  NoDup (Js.keys m) -> Js.values m = map (Js.get_or0 keqb m) (Js.keys m).
Proof.
  intros N. unfold Js.values, Js.keys. rewrite map_map.
  apply map_ext_in. intros [k v] He. unfold Js.get_or0. simpl.
  now rewrite (in_get keqb keqb_eq m k v N He).
Qed.

(** The counts the loop leaves, read in key order. *)
Lemma count_into_values (l : list A) :
  Js.values (count_into keqb key l []) =
  map (occurrences keqb key l) (Js.keys (count_into keqb key l [])).
Proof.
  rewrite values_by_get by (apply count_into_nodup; constructor).
  apply map_ext. intros k. now rewrite count_into_get.
Qed.

(** The largest count the loop leaves is the largest group. *)
Lemma count_into_zmax (l : list A) :
  zmax (Js.values (count_into keqb key l [])) =
  zmax (map (fun x => occurrences keqb key l (key x)) l).
Proof.
  rewrite count_into_values, <- (map_map key (occurrences keqb key l)).
  apply Z.le_antisymm; apply zmax_incl; intros v Hv;
    apply in_map_iff in Hv; destruct Hv as (k & <- & Hk); apply in_map;
    apply count_into_keys in Hk || apply count_into_keys; simpl in *; tauto.
Qed.

End CountingFacts.

(** ** The scan without the early exit is the minimax choice *)

Lemma str_eqb_eq (a b : Js.str) : Js.str_eqb a b = true <-> a = b.
Proof.
  revert b; induction a as [|x a IH]; intros [|y b]; simpl;
    try (split; [discriminate | intros [=]]); [tauto|].
  rewrite andb_true_iff, N.eqb_eq, IH. split.
  - intros [-> ->]. reflexivity.
  - intros [= -> ->]. auto.
Qed.

Lemma small_number_prints (v : Z) :
  0 <= v <= 4 -> Js.string_of_number v = [Z.to_N (48 + v)].
Proof.
  intros H. assert (v = 0 \/ v = 1 \/ v = 2 \/ v = 3 \/ v = 4) as C by lia.
  decompose [or] C; subst; reflexivity.
Qed.

(** On scores within range the key tells feedbacks apart. *)
Lemma feedbackKey_eqb (x y : Feedback) :
  0 <= black x <= 4 -> 0 <= white x <= 4 ->
  0 <= black y <= 4 -> 0 <= white y <= 4 ->
  Js.str_eqb (feedbackKey x) (feedbackKey y) = feedback_eqb x y.
Proof.
  intros Hbx Hwx Hby Hwy. unfold feedbackKey, feedback_eqb.
  rewrite !small_number_prints by assumption. cbn [app Js.str_eqb].
  rewrite andb_true_r.
  f_equal.
  - destruct (Z.eqb_spec (black x) (black y)) as [->|Hne]; [apply N.eqb_refl|].
    apply N.eqb_neq. intros H. apply Z2N.inj in H; lia.
  - destruct (Z.eqb_spec (white x) (white y)) as [->|Hne]; [apply N.eqb_refl|].
    apply N.eqb_neq. intros H. apply Z2N.inj in H; lia.
Qed.

Lemma feedbackFor_key_eqb (a b g : Code) :
  Js.str_eqb (feedbackKey (feedbackFor a g)) (feedbackKey (feedbackFor b g))
  = feedback_eqb (feedbackFor a g) (feedbackFor b g).
Proof.
  pose proof (feedbackFor_range a g). pose proof (feedbackFor_range b g).
  apply feedbackKey_eqb; lia.
Qed.

Lemma partitions_of_count (remaining : list Code) (g : Code) :
  partitions_of remaining g =
  count_into Js.str_eqb (fun secret => feedbackKey (feedbackFor secret g)) remaining [].
Proof. reflexivity. Qed.

(** The score of the scan without early exit is the size of the largest
    group. *)
Lemma full_score_worst (remaining : list Code) (g : Code) :
  full_score remaining g = worst remaining g.
Proof.
  unfold full_score, worst.
  rewrite scan_all_zmax, partitions_of_count, (count_into_zmax Js.str_eqb str_eqb_eq).
  unfold zmax. f_equal. apply map_ext. intros c.
  unfold occurrences, group. do 2 f_equal.
  apply filter_ext. intros c'. apply feedbackFor_key_eqb.
Qed.

Lemma set_has_iff (s : list Js.str) (k : Js.str) :
  Js.set_has s k = true <-> In k s.
Proof.
  unfold Js.set_has. rewrite existsb_exists. split.
  - intros (x & Hx & E). apply str_eqb_eq in E. now subst.
  - intros H. exists k. split; [assumption | now apply str_eqb_eq].
Qed.

Lemma set_of_list_from (l s0 : list Js.str) (k : Js.str) :
  In k (fold_left Js.set_add l s0) <-> In k s0 \/ In k l.
Proof.
  revert s0; induction l as [|x l IH]; intros s0; simpl; [tauto|].
  rewrite IH. unfold Js.set_add.
  destruct (Js.set_has s0 x) eqn:E.
  - apply set_has_iff in E. intuition (subst; auto).
  - rewrite in_app_iff. simpl. intuition.
Qed.

Lemma codeToString_inj (a b : Code) :
  well_typed a = true -> well_typed b = true ->
  codeToString a = codeToString b -> a = b.
Proof.
  intros Ha Hb E.
  pose proof (parse_codeToString a Ha) as Pa.
  pose proof (parse_codeToString b Hb) as Pb.
  rewrite E in Pa. congruence.
Qed.

(** On well typed codes the set of strings stands for the list. *)
Lemma in_remaining_set_iff (remaining : list Code) (g : Code) :
  Forall (fun c => well_typed c = true) remaining -> well_typed g = true ->
  (in_remaining_set remaining g = true <-> In g remaining).
Proof.
  intros Hall Hg. unfold in_remaining_set, Js.set_of_list.
  rewrite set_has_iff, set_of_list_from, in_map_iff. simpl. split.
  - intros [[]|(c & E & Hc)].
    rewrite Forall_forall in Hall.
    now rewrite <- (codeToString_inj c g (Hall c Hc) Hg E).
  - intros H. right. now exists g.
Qed.

(** With the early exit taken out, the scan does what the specification
    asks: it returns one of [allGuesses] of least [worst]; among those, one
    in [remaining] if there is any; among those, the first as a string. *)
Lemma recommendNextGuess_unpruned_minimax (r1 r2 : Code) (rest : list Code)
      (g0 : Code) (guesses : list Code) :
  Forall (fun c => well_typed c = true) (r1 :: r2 :: rest) ->
  Forall (fun c => well_typed c = true) (g0 :: guesses) ->
  In (recommendNextGuess_unpruned (r1 :: r2 :: rest) (g0 :: guesses)) (g0 :: guesses)
  /\ forall g, In g (g0 :: guesses) ->
       worst (r1 :: r2 :: rest)
             (recommendNextGuess_unpruned (r1 :: r2 :: rest) (g0 :: guesses))
         <= worst (r1 :: r2 :: rest) g
       /\ (worst (r1 :: r2 :: rest) g
            = worst (r1 :: r2 :: rest)
                    (recommendNextGuess_unpruned (r1 :: r2 :: rest) (g0 :: guesses)) ->
           (In g (r1 :: r2 :: rest) ->
            In (recommendNextGuess_unpruned (r1 :: r2 :: rest) (g0 :: guesses))
               (r1 :: r2 :: rest))
           /\ ((In g (r1 :: r2 :: rest) <->
                In (recommendNextGuess_unpruned (r1 :: r2 :: rest) (g0 :: guesses))
                   (r1 :: r2 :: rest)) ->
               Js.str_ltb (codeToString g)
                 (codeToString
                    (recommendNextGuess_unpruned (r1 :: r2 :: rest) (g0 :: guesses)))
               = false)).
Proof.
  intros Hrem Hgs.
  destruct (recommendNextGuess_unpruned_least r1 r2 rest g0 guesses) as [Hin Hl].
  cbv zeta in Hin, Hl.
  set (remaining := r1 :: r2 :: rest) in *.
  set (chosen := recommendNextGuess_unpruned remaining (g0 :: guesses)) in *.
  split; [assumption|].
  intros g Hg. specialize (Hl g Hg). unfold no_worse in Hl.
  rewrite !full_score_worst in Hl.
  rewrite Forall_forall in Hgs.
  pose proof (in_remaining_set_iff remaining g Hrem (Hgs g Hg)) as Mg.
  pose proof (in_remaining_set_iff remaining chosen Hrem (Hgs chosen Hin)) as Mc.
  split; [lia|]. intros Heq.
  destruct Hl as [Hlt | [_ [[Hc Hgf] | [Hm Hs]]]]; [lia | |].
  - split.
    + intros _. now apply Mc.
    + intros Hiff. apply Mc, Hiff, Mg in Hc. congruence.
  - split.
    + intros Hgr. apply Mc. rewrite Hm. now apply Mg.
    + intros _. exact Hs.
Qed.

(** ** The scan with the early exit *)

(** C1, at an input where it fails.  After the first guess 1122 is answered
    (2, 2) four codes are left.  Against them the guess 1213 splits the four
    into groups of one, so the least worst case is 1; the recommender
    answers 2121, whose largest group has two codes.  The scan of 2121 stops
    at its first group, of size 1, which the comparison that follows takes
    for the score of 2121; the same scan without the early exit answers
    1213, as [recommendNextGuess_unpruned_minimax] says it must. *)
Theorem recommendNextGuess_early_exit_changes_choice :
  after_1122_scored_2_2
    = [mkCode 1 2 1 2; mkCode 1 2 2 1; mkCode 2 1 1 2; mkCode 2 1 2 1]
  /\ recommendNextGuess after_1122_scored_2_2 ALL_CODES = mkCode 2 1 2 1
  /\ worst after_1122_scored_2_2 (mkCode 2 1 2 1) = 2
  /\ In (mkCode 1 2 1 3) ALL_CODES
  /\ worst after_1122_scored_2_2 (mkCode 1 2 1 3) = 1
  /\ recommendNextGuess_unpruned after_1122_scored_2_2 ALL_CODES = mkCode 1 2 1 3
  /\ ~ (forall g, In g ALL_CODES ->
          worst after_1122_scored_2_2
                (recommendNextGuess after_1122_scored_2_2 ALL_CODES)
          <= worst after_1122_scored_2_2 g).
Proof.
  assert (Hrec : recommendNextGuess after_1122_scored_2_2 ALL_CODES = mkCode 2 1 2 1)
    by (vm_compute; reflexivity).
  assert (Hbad : worst after_1122_scored_2_2 (mkCode 2 1 2 1) = 2)
    by (vm_compute; reflexivity).
  assert (Hin : In (mkCode 1 2 1 3) ALL_CODES)
    by (apply in_all_codes; reflexivity).
  assert (Hgood : worst after_1122_scored_2_2 (mkCode 1 2 1 3) = 1)
    by (vm_compute; reflexivity).
  split; [vm_compute; reflexivity|].
  repeat (split; [assumption|]).
  split; [vm_compute; reflexivity|].
  intros H. specialize (H (mkCode 1 2 1 3) Hin).
  rewrite Hrec, Hbad, Hgood in H. lia.
Qed.

(** * Further properties of the solver *)

(** ** Scoring *)


Lemma tally_from_secret_get (secret guess : Code) (idx : list nat) (st : Tally) (k : Z) :
  Js.get_or0 Z.eqb (secretCounts (tally_from secret guess idx st)) k =
  Js.get_or0 Z.eqb (secretCounts st) k
  + zsum (map (miss_at secret guess secret k) idx).
Proof.
  revert st; induction idx as [|i idx IH]; intros st; simpl; [ring|].
  rewrite IH. unfold tally_step, miss_at.
  destruct (code_get secret i =? code_get guess i); cbn [secretCounts negb andb b2z].
  - ring.
  - unfold bump. rewrite (get_or0_set Z.eqb Z.eqb_eq).
    destruct (code_get secret i =? k) eqn:E; cbn [b2z];
      [apply Z.eqb_eq in E; rewrite E|]; lia.
Qed.

Lemma tally_from_guess_get (secret guess : Code) (idx : list nat) (st : Tally) (k : Z) :
  Js.get_or0 Z.eqb (guessCounts (tally_from secret guess idx st)) k =
  Js.get_or0 Z.eqb (guessCounts st) k
  + zsum (map (miss_at secret guess guess k) idx).
Proof.
  revert st; induction idx as [|i idx IH]; intros st; simpl; [ring|].
  rewrite IH. unfold tally_step, miss_at.
  destruct (code_get secret i =? code_get guess i); cbn [guessCounts negb andb b2z].
  - ring.
  - unfold bump. rewrite (get_or0_set Z.eqb Z.eqb_eq).
    destruct (code_get guess i =? k) eqn:E; cbn [b2z];
      [apply Z.eqb_eq in E; rewrite E|]; lia.
Qed.

Lemma peg_count_positions (c : Code) (k : Z) :
  peg_count c k = zsum (map (fun i => b2z (code_get c i =? k)) (seq 0 4)).
Proof.
  unfold peg_count, code_elems. simpl.
  destruct (Z.eq_dec (peg0 c) k), (Z.eq_dec (peg1 c) k),
    (Z.eq_dec (peg2 c) k), (Z.eq_dec (peg3 c) k);
    repeat match goal with
           | H : _ = k |- _ => rewrite (proj2 (Z.eqb_eq _ _) H); clear H
           | H : _ <> k |- _ => rewrite (proj2 (Z.eqb_neq _ _) H); clear H
           end; reflexivity.
Qed.

Lemma zsum_map_add {A : Type} (f g : A -> Z) (l : list A) :
  zsum (map (fun x => f x + g x) l) = zsum (map f l) + zsum (map g l).
Proof.
  induction l as [|x l IH]; simpl; [reflexivity | rewrite IH; ring].
Qed.

(** A peg of the secret is either in place or left for the whites. *)
Lemma peg_count_secret_split (secret guess : Code) (k : Z) :
  peg_count secret k =
  zsum (map (hit_at secret guess k) (seq 0 4))
  + Js.get_or0 Z.eqb (secretCounts (tally secret guess)) k.
Proof.
  unfold tally. rewrite tally_from_secret_get, peg_count_positions.
  cbn [secretCounts Js.get_or0 Js.get]. rewrite Z.add_0_l, <- zsum_map_add.
  apply zsum_map_ext_in. intros i _. unfold hit_at, miss_at.
  destruct (Z.eqb_spec (code_get secret i) (code_get guess i)) as [->|];
    destruct (code_get guess i =? k), (code_get secret i =? k); reflexivity.
Qed.

Lemma peg_count_guess_split (secret guess : Code) (k : Z) :
  peg_count guess k =
  zsum (map (hit_at secret guess k) (seq 0 4))
  + Js.get_or0 Z.eqb (guessCounts (tally secret guess)) k.
Proof.
  unfold tally. rewrite tally_from_guess_get, peg_count_positions.
  cbn [guessCounts Js.get_or0 Js.get]. rewrite Z.add_0_l, <- zsum_map_add.
  apply zsum_map_ext_in. intros i _. unfold hit_at, miss_at.
  destruct (code_get secret i =? code_get guess i), (code_get guess i =? k); reflexivity.
Qed.

Lemma zsum_indicator (l : list Z) (x : Z) :
  NoDup l -> In x l -> zsum (map (fun k => b2z (x =? k)) l) = 1.
Proof.
  induction 1 as [|y l Hy N IH]; simpl; [tauto|].
  intros [->|Hin].
  - rewrite Z.eqb_refl. simpl.
    rewrite (zsum_map_ext_in _ (fun _ => 0)).
    + clear. induction l; simpl; lia.
    + intros k Hk. destruct (Z.eqb_spec x k); [subst; contradiction | reflexivity].
  - destruct (Z.eqb_spec x y); [subst; contradiction|]. simpl. now apply IH.
Qed.

Lemma zsum_hit_at (secret guess : Code) (pegs : list Z) (i : nat) :
  NoDup pegs -> In (code_get guess i) pegs ->
  zsum (map (fun k => hit_at secret guess k i) pegs)
  = b2z (code_get secret i =? code_get guess i).
Proof.
  intros N Hin. unfold hit_at.
  destruct (code_get secret i =? code_get guess i); simpl.
  - now apply zsum_indicator.
  - clear. induction pegs; simpl; lia.
Qed.

Lemma code_get_in_elems (c : Code) (i : nat) : In (code_get c i) (code_elems c).
Proof.
  unfold code_elems. destruct i as [|[|[|i]]]; simpl; tauto.
Qed.

(** The blacks, peg by peg. *)
Lemma zsum_hits_black (secret guess : Code) (pegs : list Z) :
  NoDup pegs -> incl (code_elems guess) pegs ->
  zsum (map (fun k => zsum (map (hit_at secret guess k) (seq 0 4))) pegs)
  = t_black (tally secret guess).
Proof.
  intros N Hincl. rewrite tally_black. simpl.
  rewrite (zsum_map_ext_in _
             (fun k => hit_at secret guess k 0 + (hit_at secret guess k 1
                       + (hit_at secret guess k 2 + hit_at secret guess k 3))))
    by (intros; ring).
  rewrite !zsum_map_add.
  rewrite !zsum_hit_at by (auto using code_get_in_elems).
  simpl. ring.
Qed.

Lemma guess_count_absent (secret guess : Code) (k : Z) :
  ~ In k (code_elems guess) ->
  Js.get_or0 Z.eqb (guessCounts (tally secret guess)) k = 0.
Proof.
  intros H. unfold tally. rewrite tally_from_guess_get.
  cbn [guessCounts Js.get_or0 Js.get]. rewrite Z.add_0_l.
  rewrite (zsum_map_ext_in _ (fun _ => 0)); [reflexivity|].
  intros i _. unfold miss_at.
  destruct (Z.eqb_spec (code_get guess i) k) as [E|]; [|now rewrite andb_false_r].
  exfalso. apply H. rewrite <- E. apply code_get_in_elems.
Qed.

(** The whites, peg by peg. *)
Lemma zsum_common_white (secret guess : Code) (pegs : list Z) :
  NoDup pegs -> incl (code_elems guess) pegs ->
  zsum (map (common (secretCounts (tally secret guess))
                    (guessCounts (tally secret guess))) pegs)
  = white (feedbackFor secret guess).
Proof.
  intros N Hincl. unfold feedbackFor. cbn [white].
  destruct (tally_ok_final secret guess) as [_ Ns Ng Ps Pg].
  rewrite (white_of_common _ _ Ng).
  apply (zsum_map_support Z.eq_dec); auto.
  - intros k _ Hk. rewrite common_comm. now apply common_absent_l.
  - intros k _ Hk. unfold common. rewrite guess_count_absent by auto.
    pose proof (get_or0_nonneg Z.eqb Z.eqb_eq _ k Ps). lia.
Qed.

(** X2: blacks and whites together count the pegs the two codes have in
    common, colour by colour: the sum over the colours of the smaller of
    the two numbers of occurrences. *)
Theorem feedbackFor_total_pins (secret guess : Code) (pegs : list Z) :
  NoDup pegs -> incl (code_elems guess) pegs ->
  black (feedbackFor secret guess) + white (feedbackFor secret guess)
  = zsum (map (fun k => Z.min (peg_count secret k) (peg_count guess k)) pegs).
Proof.
  intros N Hincl.
  rewrite (zsum_map_ext_in _
             (fun k => zsum (map (hit_at secret guess k) (seq 0 4))
                       + common (secretCounts (tally secret guess))
                                (guessCounts (tally secret guess)) k)).
  - rewrite zsum_map_add, zsum_hits_black, zsum_common_white by assumption.
    reflexivity.
  - intros k _.
    rewrite (peg_count_secret_split secret guess k),
            (peg_count_guess_split secret guess k).
    unfold common. lia.
Qed.

Lemma feedbackFor_total_pins_witness :
  black (feedbackFor (mkCode 2 2 3 3) (mkCode 1 2 2 3))
  + white (feedbackFor (mkCode 2 2 3 3) (mkCode 1 2 2 3))
  = zsum (map (fun k => Z.min (peg_count (mkCode 2 2 3 3) k)
                              (peg_count (mkCode 1 2 2 3) k)) all_pegs).
Proof.
  apply (feedbackFor_total_pins (mkCode 2 2 3 3) (mkCode 1 2 2 3) all_pegs).
  - unfold all_pegs. repeat constructor; simpl; intuition discriminate.
  - intros k Hk. simpl in Hk. unfold all_pegs. simpl. intuition.
Defined.

(** X3: three blacks leave no white: [feedbackFor] never answers (3, 1),
    a pair that [isValidFeedback] lets through. *)
Theorem feedbackFor_never_three_one :
  isValidFeedback (mkFeedback 3 1) = true
  /\ forall secret guess, feedbackFor secret guess <> mkFeedback 3 1.
Proof.
  split; [reflexivity|].
  intros secret guess. unfold feedbackFor, tally, tally_from, tally_step. simpl.
  destruct (Z.eqb_spec (peg0 secret) (peg0 guess)),
    (Z.eqb_spec (peg1 secret) (peg1 guess)),
    (Z.eqb_spec (peg2 secret) (peg2 guess)),
    (Z.eqb_spec (peg3 secret) (peg3 guess));
    cbn [t_black secretCounts guessCounts]; try (intros [=]; fail);
    unfold white_of, bump, Js.get_or0; simpl;
    match goal with
    | H : ?a <> ?b |- _ => rewrite (proj2 (Z.eqb_neq b a) (fun e => H (eq_sym e)))
    end; intros [=].
Qed.

(** ** Filtering *)

Lemma filter_filter_andb {A : Type} (f g : A -> bool) (l : list A) :
  filter f (filter g l) = filter (fun x => g x && f x) l.
Proof.
  induction l as [|x l IH]; simpl; [reflexivity|].
  destruct (g x); simpl; [destruct (f x)|]; now rewrite IH.
Qed.

Lemma filterRemaining_one_filter (steps : list Step) (U : list Code) :
  filterRemaining steps U = filter (consistent_with_all steps) U.
Proof.
  revert U; induction steps as [|st steps IH]; intros U; simpl.
  - unfold consistent_with_all. simpl. induction U; simpl; congruence.
  - change (fold_left _ steps ?l) with (filterRemaining steps l).
    rewrite IH, filter_filter_andb. reflexivity.
Qed.

Lemma consistent_iff (st : Step) (c : Code) :
  consistent st c = true <-> feedbackFor c (guess st) = feedback st.
Proof.
  unfold consistent. rewrite andb_true_iff, !Z.eqb_eq.
  destruct (feedbackFor c (guess st)) as [b w], (feedback st) as [b' w']. simpl.
  split; [intros [-> ->]; reflexivity | intros [= -> ->]; auto].
Qed.

(** X4: filtering by a history is one pass that keeps, in their order,
    the candidates whose score against every recorded guess is the recorded
    feedback. *)
Theorem filterRemaining_keeps_exactly (steps : list Step) (U : list Code) :
  filterRemaining steps U = filter (consistent_with_all steps) U
  /\ forall c, In c (filterRemaining steps U) <->
       In c U /\ forall st, In st steps -> feedbackFor c (guess st) = feedback st.
Proof.
  split; [apply filterRemaining_one_filter|].
  intros c. rewrite filterRemaining_one_filter, filter_In.
  unfold consistent_with_all. rewrite forallb_forall.
  split; intros [HU H]; (split; [assumption|]); intros st Hst;
    apply consistent_iff, H, Hst.
Qed.

Lemma consistent_with_all_perm (h1 h2 : list Step) (c : Code) :
  Permutation h1 h2 -> consistent_with_all h1 c = consistent_with_all h2 c.
Proof.
  unfold consistent_with_all.
  induction 1 as [|x l l' _ IH|x y l|l l' l'' _ IH1 _ IH2]; simpl.
  - reflexivity.
  - now rewrite IH.
  - now rewrite !andb_assoc, (andb_comm (consistent y c)).
  - congruence.
Qed.

(** X5: the order of the steps does not matter: a rearranged history
    leaves the same candidates, in the same order. *)
Theorem filterRemaining_order_independent (h1 h2 : list Step) (U : list Code) :
  Permutation h1 h2 -> filterRemaining h1 U = filterRemaining h2 U.
Proof.
  intros P. rewrite !filterRemaining_one_filter.
  apply filter_ext. intros c. now apply consistent_with_all_perm.
Qed.

Lemma filterRemaining_order_independent_witness :
  filterRemaining [mkStep (mkCode 1 1 2 2) (mkFeedback 1 0);
                   mkStep (mkCode 3 3 4 5) (mkFeedback 0 2)] ALL_CODES
  = filterRemaining [mkStep (mkCode 3 3 4 5) (mkFeedback 0 2);
                     mkStep (mkCode 1 1 2 2) (mkFeedback 1 0)] ALL_CODES.
Proof.
  apply (filterRemaining_order_independent
           [mkStep (mkCode 1 1 2 2) (mkFeedback 1 0);
            mkStep (mkCode 3 3 4 5) (mkFeedback 0 2)]
           [mkStep (mkCode 3 3 4 5) (mkFeedback 0 2);
            mkStep (mkCode 1 1 2 2) (mkFeedback 1 0)] ALL_CODES).
  apply perm_swap.
Defined.

(** X6: filtering by a longer history from scratch is filtering what the
    first part left by the rest; the two parts can be applied in either
    order, and applying a history twice changes nothing. *)
Theorem filterRemaining_incremental (h1 h2 : list Step) (U : list Code) :
  filterRemaining (h1 ++ h2) U = filterRemaining h2 (filterRemaining h1 U)
  /\ filterRemaining h2 (filterRemaining h1 U) = filterRemaining h1 (filterRemaining h2 U)
  /\ filterRemaining h1 (filterRemaining h1 U) = filterRemaining h1 U.
Proof.
  split; [apply fold_left_app|].
  rewrite !filterRemaining_one_filter, !filter_filter_andb. split.
  - apply filter_ext. intros c. apply andb_comm.
  - apply filter_ext. intros c. now destruct (consistent_with_all h1 c).
Qed.

(** X7: a history that records two different feedbacks for one guess
    leaves no candidate. *)
Theorem filterRemaining_contradiction (steps : list Step) (U : list Code)
        (st1 st2 : Step) :
  In st1 steps -> In st2 steps ->
  guess st1 = guess st2 -> feedback st1 <> feedback st2 ->
  filterRemaining steps U = [].
Proof.
  intros H1 H2 Hg Hf.
  destruct (filterRemaining steps U) as [|c l] eqn:E; [reflexivity|].
  assert (Hc : In c (filterRemaining steps U)) by (rewrite E; now left).
  apply filterRemaining_in in Hc. destruct Hc as [_ Hc].
  pose proof (proj1 (consistent_iff _ _) (Hc st1 H1)) as E1.
  pose proof (proj1 (consistent_iff _ _) (Hc st2 H2)) as E2.
  rewrite Hg in E1. congruence.
Qed.

Lemma filterRemaining_contradiction_witness :
  filterRemaining [mkStep (mkCode 1 1 2 2) (mkFeedback 1 0);
                   mkStep (mkCode 1 1 2 2) (mkFeedback 0 1)] ALL_CODES = [].
Proof.
  apply (filterRemaining_contradiction
           [mkStep (mkCode 1 1 2 2) (mkFeedback 1 0);
            mkStep (mkCode 1 1 2 2) (mkFeedback 0 1)] ALL_CODES
           (mkStep (mkCode 1 1 2 2) (mkFeedback 1 0))
           (mkStep (mkCode 1 1 2 2) (mkFeedback 0 1))).
  - now left.
  - right. now left.
  - reflexivity.
  - discriminate.
Defined.

Lemma all_codes_length : length ALL_CODES = 1296%nat.
Proof. vm_compute. reflexivity. Qed.

Lemma strongly_sorted_filter {A : Type} (R : A -> A -> Prop) (f : A -> bool)
      (l : list A) :
  StronglySorted R l -> StronglySorted R (filter f l).
Proof.
  induction 1 as [|x l Hs IH Hf]; simpl; [constructor|].
  destruct (f x); [|assumption].
  constructor; [assumption|].
  rewrite Forall_forall in *. intros y Hy. apply filter_In in Hy. now apply Hf.
Qed.

Lemma all_codes_well_typed : Forall (fun c => well_typed c = true) ALL_CODES.
Proof.
  apply Forall_forall. intros c Hc. exact (proj1 (in_all_codes c) Hc).
Qed.

Lemma filterRemaining_keeps_type (steps : list Step) (U : list Code) :
  Forall (fun c => well_typed c = true) U ->
  Forall (fun c => well_typed c = true) (filterRemaining steps U).
Proof.
  intros H. rewrite filterRemaining_one_filter.
  rewrite Forall_forall in *. intros c Hc. apply filter_In in Hc. now apply H.
Qed.

(** X8: whatever the history, what is left of the full code space is a
    list of well typed codes without repeats, still in dictionary order,
    and no longer than 1296. *)
Theorem filterRemaining_default_shape (steps : list Step) :
  Forall (fun c => well_typed c = true) (filterRemaining steps ALL_CODES)
  /\ NoDup (filterRemaining steps ALL_CODES)
  /\ StronglySorted code_lt (filterRemaining steps ALL_CODES)
  /\ (length (filterRemaining steps ALL_CODES) <= 1296)%nat.
Proof.
  rewrite filterRemaining_one_filter.
  split; [|split; [|split]].
  - apply Forall_forall. intros c Hc. apply filter_In in Hc.
    exact (proj1 (in_all_codes c) (proj1 Hc)).
  - apply NoDup_filter, all_codes_nodup.
  - apply strongly_sorted_filter, all_codes_sorted.
  - pose proof (filter_length_le (consistent_with_all steps) ALL_CODES) as H.
    rewrite all_codes_length in H. exact H.
Qed.

(** ** Printing codes *)

Lemma codeToString_length (c : Code) :
  well_typed c = true -> length (codeToString c) = 4%nat.
Proof.
  intros H. apply parse_codeToString in H.
  assert (Hs : exists c', parseCodeString (codeToString c) = Some c') by eauto.
  apply parse_some_iff in Hs. destruct Hs as [Hlen _].
  destruct (parse_some_sound _ _ H) as [_ E]. rewrite <- E in Hlen. exact Hlen.
Qed.

(** X9: on well typed codes the printed form has four characters and
    tells codes apart, so a set of printed codes stands for the set of
    codes. *)
Theorem codeToString_faithful (a b : Code) :
  well_typed a = true -> well_typed b = true ->
  length (codeToString a) = 4%nat
  /\ (codeToString a = codeToString b <-> a = b).
Proof.
  intros Ha Hb. split; [now apply codeToString_length|].
  split; [now apply codeToString_inj | now intros ->].
Qed.

Lemma codeToString_faithful_witness :
  length (codeToString (mkCode 1 2 3 4)) = 4%nat
  /\ (codeToString (mkCode 1 2 3 4) = codeToString (mkCode 1 2 4 3)
      <-> mkCode 1 2 3 4 = mkCode 1 2 4 3).
Proof.
  apply (codeToString_faithful (mkCode 1 2 3 4) (mkCode 1 2 4 3)); reflexivity.
Defined.

(** ** The scan with the early exit: what it keeps *)

Lemma scan_worst_from (best : Js.num) (vals : list Z) (w : Z) :
  0 <= w ->
  (Js.ltb_num (Z.max w (zmax vals)) best = true ->
   scan_worst best vals w = Z.max w (zmax vals))
  /\ (Js.ltb_num (Z.max w (zmax vals)) best = false ->
      Js.ltb_num (scan_worst best vals w) best = false
      /\ scan_worst best vals w <= Z.max w (zmax vals)).
Proof.
  revert w; induction vals as [|v vals IH]; intros w Hw; simpl.
  - pose proof (Z.max_spec w 0).
    replace (Z.max w 0) with w by lia. split; [reflexivity | split; [assumption | lia]].
  - rewrite Z.gtb_ltb.
    assert (E : (if w <? v then v else w) = Z.max w v)
      by (destruct (Z.ltb_spec w v); lia).
    rewrite E.
    assert (EM : Z.max w (Z.max v (zmax vals)) = Z.max (Z.max w v) (zmax vals)) by lia.
    rewrite EM.
    destruct (Js.geb_num (Z.max w v) best) eqn:G.
    + destruct best as [b|]; simpl in *; [|discriminate].
      apply Z.leb_le in G. split.
      * intros H. apply Z.ltb_lt in H. lia.
      * intros _. split; [apply Z.ltb_ge; lia | lia].
    + apply IH. lia.
Qed.

Lemma pruned_score_cases (remaining : list Code) (best : Js.num) (g : Code) :
  (Js.ltb_num (worst remaining g) best = true ->
   pruned_score remaining best g = worst remaining g)
  /\ (Js.ltb_num (worst remaining g) best = false ->
      Js.ltb_num (pruned_score remaining best g) best = false
      /\ pruned_score remaining best g <= worst remaining g).
Proof.
  unfold pruned_score. rewrite <- full_score_worst. unfold full_score.
  rewrite scan_all_zmax.
  pose proof (scan_worst_from best (Js.values (partitions_of remaining g)) 0 (Z.le_refl 0))
    as H.
  pose proof (zmax_nonneg (Js.values (partitions_of remaining g))) as Hn.
  replace (Z.max 0 (zmax (Js.values (partitions_of remaining g))))
    with (zmax (Js.values (partitions_of remaining g))) in H by lia.
  exact H.
Qed.

(** X10: the early exit gives a guess its true worst case whenever that is
    below the best score so far; otherwise it gives some value that is not
    below the best score and not above the true worst case. *)
Theorem pruned_score_within (remaining : list Code) (best : Js.num) (g : Code) :
  (Js.ltb_num (worst remaining g) best = true ->
   pruned_score remaining best g = worst remaining g)
  /\ (Js.ltb_num (worst remaining g) best = false ->
      Js.ltb_num (pruned_score remaining best g) best = false
      /\ pruned_score remaining best g <= worst remaining g).
Proof. apply pruned_score_cases. Qed.

Lemma pruned_score_within_witness :
  Js.ltb_num (pruned_score after_1122_scored_2_2 (Js.Fin 1) (mkCode 2 1 2 1)) (Js.Fin 1)
  = false
  /\ pruned_score after_1122_scored_2_2 (Js.Fin 1) (mkCode 2 1 2 1)
     <= worst after_1122_scored_2_2 (mkCode 2 1 2 1).
Proof.
  apply (proj2 (pruned_score_within after_1122_scored_2_2 (Js.Fin 1) (mkCode 2 1 2 1))).
  vm_compute. reflexivity.
Defined.

(** The four ways one turn of the scan can end. *)
Lemma consider_cases (remaining : list Code) (b : Best) (g : Code) (m : Z) :
  bestScore b = Js.Fin m ->
  let next := consider remaining (Js.set_of_list (map codeToString remaining)) b g in
  let ws := pruned_score remaining (Js.Fin m) g in
  (ws < m /\ next = mkBest g (Js.Fin ws) (in_remaining_set remaining g))
  \/ (ws = m /\ in_remaining_set remaining g = true /\ bestIsRemaining b = false
      /\ next = mkBest g (Js.Fin m) true)
  \/ (ws = m /\ in_remaining_set remaining g = bestIsRemaining b
      /\ Js.str_ltb (codeToString g) (codeToString (bestGuess b)) = true
      /\ next = mkBest g (Js.Fin m) (bestIsRemaining b))
  \/ (m <= ws /\ next = b).
Proof.
  intros Hs. cbv zeta. unfold consider.
  change (scan_worst (bestScore b) (Js.values (partitions_of remaining g)) 0)
    with (pruned_score remaining (bestScore b) g).
  change (Js.set_has (Js.set_of_list (map codeToString remaining)) (codeToString g))
    with (in_remaining_set remaining g).
  rewrite Hs. cbn [Js.ltb_num Js.eqb_num].
  destruct (Z.ltb_spec (pruned_score remaining (Js.Fin m) g) m) as [Hlt|Hge];
    [left; auto|].
  destruct (Z.eqb_spec (pruned_score remaining (Js.Fin m) g) m) as [Heq|Hne];
    [|right; right; right; auto].
  destruct (in_remaining_set remaining g) eqn:Eg, (bestIsRemaining b) eqn:Eb;
    cbn [andb negb Bool.eqb].
  - destruct (Js.str_ltb (codeToString g) (codeToString (bestGuess b))) eqn:Es.
    + right; right; left. auto.
    + right; right; right. auto.
  - right; left. auto.
  - right; right; right. auto.
  - destruct (Js.str_ltb (codeToString g) (codeToString (bestGuess b))) eqn:Es.
    + right; right; left. auto.
    + right; right; right. auto.
Qed.

Lemma pruned_score_vs_worst (remaining : list Code) (g : Code) (m : Z) :
  (pruned_score remaining (Js.Fin m) g < m ->
   pruned_score remaining (Js.Fin m) g = worst remaining g)
  /\ (m <= pruned_score remaining (Js.Fin m) g -> m <= worst remaining g).
Proof.
  destruct (pruned_score_cases remaining (Js.Fin m) g) as [H1 H2].
  cbn [Js.ltb_num] in *.
  destruct (Z.ltb_spec (worst remaining g) m) as [Hlt|Hge].
  - specialize (H1 eq_refl). split; intros; lia.
  - destruct (H2 eq_refl) as [H3 H4]. apply Z.ltb_ge in H3. split; intros; lia.
Qed.

Lemma consider_scan_inv (remaining seen : list Code) (b : Best) (g : Code) (m : Z) :
  scan_inv remaining seen b m ->
  exists m',
    scan_inv remaining (seen ++ [g])
      (consider remaining (Js.set_of_list (map codeToString remaining)) b g) m'.
Proof.
  intros [Hs Hl (ga & Hga & Ea) Hin Hm].
  destruct (pruned_score_vs_worst remaining g m) as [Hlow Hhigh].
  assert (Hlast : In g (seen ++ [g])) by (apply in_or_app; right; now left).
  assert (Hold : forall x, In x seen -> In x (seen ++ [g]))
    by (intros; apply in_or_app; now left).
  assert (Hkeep : m <= worst remaining g ->
                  forall x, In x (seen ++ [g]) -> m <= worst remaining x).
  { intros Hw x Hx. apply in_app_or in Hx. destruct Hx as [Hx|[<-|[]]]; auto. }
  destruct (consider_cases remaining b g m Hs)
    as [[Hlt ->] | [(Heq & Hg & Hb & ->) | [(Heq & Hg & Hstr & ->) | [Hge ->]]]].
  - exists (pruned_score remaining (Js.Fin m) g).
    specialize (Hlow Hlt).
    constructor; cbn [bestGuess bestScore bestIsRemaining].
    + reflexivity.
    + intros x Hx. apply in_app_or in Hx. destruct Hx as [Hx|[<-|[]]]; [|lia].
      specialize (Hl x Hx). lia.
    + exists g. split; [assumption | now symmetry].
    + assumption.
    + reflexivity.
  - exists m. constructor; cbn [bestGuess bestScore bestIsRemaining].
    + reflexivity.
    + apply Hkeep, Hhigh. lia.
    + exists ga. auto.
    + assumption.
    + now symmetry.
  - exists m. constructor; cbn [bestGuess bestScore bestIsRemaining].
    + reflexivity.
    + apply Hkeep, Hhigh. lia.
    + exists ga. auto.
    + assumption.
    + now symmetry.
  - exists m. constructor.
    + assumption.
    + apply Hkeep, Hhigh, Hge.
    + exists ga. auto.
    + auto.
    + assumption.
Qed.

Lemma first_consider_scan_inv (remaining : list Code) (g0 : Code) :
  scan_inv remaining [g0]
    (consider remaining (Js.set_of_list (map codeToString remaining))
              (mkBest (mkCode 1 1 2 2) Js.Infinity false) g0)
    (worst remaining g0).
Proof.
  unfold consider. cbn [bestScore Js.ltb_num].
  change (scan_worst Js.Infinity (Js.values (partitions_of remaining g0)) 0)
    with (pruned_score remaining Js.Infinity g0).
  rewrite (proj1 (pruned_score_cases remaining Js.Infinity g0) eq_refl).
  constructor; cbn [bestGuess bestScore bestIsRemaining]; auto.
  - intros g [<-|[]]. lia.
  - exists g0. split; [now left | reflexivity].
  - now left.
Qed.

Lemma fold_consider_scan_inv (remaining seen rest : list Code) (b : Best) (m : Z) :
  scan_inv remaining seen b m ->
  exists m',
    scan_inv remaining (seen ++ rest)
      (fold_left (consider remaining (Js.set_of_list (map codeToString remaining)))
                 rest b) m'.
Proof.
  revert seen b m; induction rest as [|g rest IH]; intros seen b m H; simpl.
  - exists m. now rewrite app_nil_r.
  - destruct (consider_scan_inv remaining seen b g m H) as [m1 H1].
    destruct (IH _ _ _ H1) as [m2 H2]. exists m2.
    now rewrite <- app_assoc in H2.
Qed.

Lemma scan_guesses_inv (remaining : list Code) (g0 : Code) (guesses : list Code) :
  exists m, scan_inv remaining (g0 :: guesses) (scan_guesses remaining (g0 :: guesses)) m.
Proof.
  unfold scan_guesses.
  change (fold_left ?f (g0 :: guesses) ?b) with (fold_left f guesses (f b g0)).
  apply (fold_consider_scan_inv remaining [g0] guesses _ _
           (first_consider_scan_inv remaining g0)).
Qed.

Lemma recommendNextGuess_scan (r1 r2 : Code) (rest allGuesses : list Code) :
  recommendNextGuess (r1 :: r2 :: rest) allGuesses
  = bestGuess (scan_guesses (r1 :: r2 :: rest) allGuesses).
Proof. reflexivity. Qed.

(** X11: with the early exit in place the score the scan ends with is
    still the least worst case over all the guesses, and some guess has
    that worst case. *)
Theorem scan_guesses_best_score (remaining : list Code) (g0 : Code)
        (guesses : list Code) :
  exists m,
    bestScore (scan_guesses remaining (g0 :: guesses)) = Js.Fin m
    /\ (forall g, In g (g0 :: guesses) -> m <= worst remaining g)
    /\ (exists g, In g (g0 :: guesses) /\ worst remaining g = m).
Proof.
  destruct (scan_guesses_inv remaining g0 guesses) as [m [Hs Hl Ha _ _]].
  exists m. auto.
Qed.

Lemma recommendNextGuess_in_guesses (r1 r2 : Code) (rest : list Code)
      (g0 : Code) (guesses : list Code) :
  In (recommendNextGuess (r1 :: r2 :: rest) (g0 :: guesses)) (g0 :: guesses).
Proof.
  rewrite recommendNextGuess_scan.
  destruct (scan_guesses_inv (r1 :: r2 :: rest) g0 guesses) as [m [_ _ _ Hin _]].
  exact Hin.
Qed.

(** X12: with two or more candidates the recommender answers one of the
    guesses it was given; given none, it answers 1122. *)
Theorem recommendNextGuess_among_guesses (r1 r2 : Code) (rest : list Code)
        (g0 : Code) (guesses : list Code) :
  In (recommendNextGuess (r1 :: r2 :: rest) (g0 :: guesses)) (g0 :: guesses)
  /\ recommendNextGuess (r1 :: r2 :: rest) [] = mkCode 1 1 2 2.
Proof.
  split; [apply recommendNextGuess_in_guesses | reflexivity].
Qed.

Lemma recommendNextGuess_keeps_type (remaining allGuesses : list Code) :
  Forall (fun c => well_typed c = true) remaining ->
  Forall (fun c => well_typed c = true) allGuesses ->
  well_typed (recommendNextGuess remaining allGuesses) = true.
Proof.
  intros Hr Hg.
  destruct remaining as [|r1 [|r2 rest]].
  - reflexivity.
  - now inversion Hr.
  - destruct allGuesses as [|g0 guesses]; [reflexivity|].
    rewrite Forall_forall in Hg. apply Hg.
    apply recommendNextGuess_in_guesses.
Qed.

(** X13: from well typed candidates and well typed guesses the recommender
    always answers a well typed code, in the degenerate cases too. *)
Theorem recommendNextGuess_well_typed (remaining allGuesses : list Code) :
  Forall (fun c => well_typed c = true) remaining ->
  Forall (fun c => well_typed c = true) allGuesses ->
  well_typed (recommendNextGuess remaining allGuesses) = true.
Proof. apply recommendNextGuess_keeps_type. Qed.

Lemma recommendNextGuess_well_typed_witness :
  well_typed (recommendNextGuess [mkCode 1 2 1 2; mkCode 1 2 2 1; mkCode 2 1 1 2]
                                 [mkCode 1 2 1 3; mkCode 2 1 2 1]) = true.
Proof.
  apply (recommendNextGuess_well_typed
           [mkCode 1 2 1 2; mkCode 1 2 2 1; mkCode 2 1 1 2]
           [mkCode 1 2 1 3; mkCode 2 1 2 1]); repeat constructor.
Defined.

(** ** Printed order and the scan over a sorted list of guesses *)

Lemma str_ltb_asym (a b : Js.str) :
  Js.str_ltb a b = true -> Js.str_ltb b a = false.
Proof.
  intros H. destruct (Js.str_ltb b a) eqn:E; [|reflexivity].
  pose proof (str_ltb_trans _ _ _ H E) as T.
  rewrite str_ltb_irrefl in T. discriminate.
Qed.

Lemma peg_prints (p : Z) :
  is_peg p = true -> Js.string_of_number p = [Z.to_N (48 + p)].
Proof.
  intros H. apply is_peg_in in H. unfold all_pegs in H. simpl in H.
  decompose [or] H; subst; try reflexivity; contradiction.
Qed.

Lemma codeToString_digits (c : Code) :
  well_typed c = true ->
  codeToString c = [Z.to_N (48 + peg0 c); Z.to_N (48 + peg1 c);
                    Z.to_N (48 + peg2 c); Z.to_N (48 + peg3 c)].
Proof.
  unfold well_typed. rewrite !andb_true_iff. intros [[[H0 H1] H2] H3].
  unfold codeToString, Js.join_numbers, code_elems. cbn [map concat].
  now rewrite !peg_prints by assumption.
Qed.

Lemma digit_ltb (p q : Z) :
  is_peg p = true -> is_peg q = true ->
  N.ltb (Z.to_N (48 + p)) (Z.to_N (48 + q)) = (p <? q).
Proof.
  unfold is_peg. rewrite !andb_true_iff, !Z.leb_le. intros Hp Hq.
  destruct (Z.ltb_spec p q); [apply N.ltb_lt | apply N.ltb_ge]; lia.
Qed.

Lemma codeToString_ltb (a b : Code) :
  well_typed a = true -> well_typed b = true ->
  Js.str_ltb (codeToString a) (codeToString b) = code_ltb a b.
Proof.
  intros Ha Hb. rewrite !codeToString_digits by assumption.
  unfold well_typed in Ha, Hb. rewrite !andb_true_iff in Ha, Hb.
  destruct Ha as [[[A0 A1] A2] A3], Hb as [[[B0 B1] B2] B3].
  unfold code_ltb. cbn [Js.str_ltb].
  rewrite !digit_ltb by assumption.
  destruct (peg3 a <? peg3 b), (peg3 b <? peg3 a); reflexivity.
Qed.

(** X14: on well typed codes the order of the printed forms, which breaks
    the ties of the scan, is the dictionary order of the codes. *)
Theorem codeToString_monotone (a b : Code) :
  well_typed a = true -> well_typed b = true ->
  (Js.str_ltb (codeToString a) (codeToString b) = true <-> code_lt a b).
Proof.
  intros Ha Hb. unfold code_lt. now rewrite codeToString_ltb.
Qed.

Lemma codeToString_monotone_witness :
  Js.str_ltb (codeToString (mkCode 1 2 6 6)) (codeToString (mkCode 1 3 1 1)) = true
  <-> code_lt (mkCode 1 2 6 6) (mkCode 1 3 1 1).
Proof.
  apply (codeToString_monotone (mkCode 1 2 6 6) (mkCode 1 3 1 1)); reflexivity.
Defined.

Lemma strongly_sorted_impl {A : Type} (R R' : A -> A -> Prop) (l : list A) :
  (forall a b, In a l -> In b l -> R a b -> R' a b) ->
  StronglySorted R l -> StronglySorted R' l.
Proof.
  intros H S. induction S as [|x l S IH F]; constructor.
  - apply IH. intros a b Ha Hb. apply H; now right.
  - rewrite Forall_forall in *. intros y Hy.
    apply H; [now left | now right | now apply F].
Qed.

Lemma all_codes_printed_sorted : StronglySorted printed_lt ALL_CODES.
Proof.
  apply (strongly_sorted_impl code_lt); [|exact all_codes_sorted].
  intros a b Ha Hb H. unfold printed_lt.
  rewrite codeToString_ltb; [exact H | |].
  - exact (proj1 (in_all_codes a) Ha).
  - exact (proj1 (in_all_codes b) Hb).
Qed.

Lemma strongly_sorted_before {A : Type} (R : A -> A -> Prop)
      (seen : list A) (g : A) (rest : list A) :
  StronglySorted R (seen ++ g :: rest) -> forall x, In x seen -> R x g.
Proof.
  induction seen as [|y seen IH]; simpl; intros S x Hx; [contradiction|].
  inversion S as [|? ? S' F]; subst. destruct Hx as [<-|Hx].
  - rewrite Forall_forall in F. apply F, in_or_app. right. now left.
  - now apply IH.
Qed.

(** Over guesses in printed order, a best guess that is not among the
    candidates has the best score as its true worst case. *)
Lemma consider_outsider (remaining seen : list Code) (b : Best) (g : Code) (m m' : Z) :
  scan_inv remaining seen b m ->
  (bestIsRemaining b = false -> worst remaining (bestGuess b) = m) ->
  (forall x, In x seen -> printed_lt x g) ->
  let next := consider remaining (Js.set_of_list (map codeToString remaining)) b g in
  bestScore next = Js.Fin m' ->
  bestIsRemaining next = false -> worst remaining (bestGuess next) = m'.
Proof.
  intros [Hs Hl Ha Hin Hm] Hout Hsorted. cbv zeta.
  destruct (pruned_score_vs_worst remaining g m) as [Hlow Hhigh].
  destruct (consider_cases remaining b g m Hs)
    as [[Hlt ->] | [(Heq & Hg & Hb & ->) | [(Heq & Hg & Hstr & ->) | [Hge ->]]]];
    cbn [bestGuess bestScore bestIsRemaining].
  - intros [= <-] _. symmetry. now apply Hlow.
  - intros _ [=].
  - specialize (Hsorted _ Hin). unfold printed_lt in Hsorted.
    apply str_ltb_asym in Hsorted. congruence.
  - rewrite Hs. intros [= <-]. exact Hout.
Qed.

Lemma fold_consider_outsider (remaining rest seen : list Code) (b : Best) (m : Z) :
  scan_inv remaining seen b m ->
  (bestIsRemaining b = false -> worst remaining (bestGuess b) = m) ->
  StronglySorted printed_lt (seen ++ rest) ->
  exists m',
    scan_inv remaining (seen ++ rest)
      (fold_left (consider remaining (Js.set_of_list (map codeToString remaining)))
                 rest b) m'
    /\ (bestIsRemaining
          (fold_left (consider remaining (Js.set_of_list (map codeToString remaining)))
                     rest b) = false ->
        worst remaining
          (bestGuess
             (fold_left (consider remaining (Js.set_of_list (map codeToString remaining)))
                        rest b)) = m').
Proof.
  revert seen b m; induction rest as [|g rest IH]; intros seen b m H Hout S; simpl.
  - exists m. rewrite app_nil_r. auto.
  - destruct (consider_scan_inv remaining seen b g m H) as [m1 H1].
    assert (Hout1 : bestIsRemaining
                      (consider remaining (Js.set_of_list (map codeToString remaining)) b g)
                    = false ->
                    worst remaining
                      (bestGuess
                         (consider remaining (Js.set_of_list (map codeToString remaining)) b g))
                    = m1).
    { apply (consider_outsider remaining seen b g m m1 H Hout).
      - apply (strongly_sorted_before printed_lt seen g rest S).
      - apply (si_score _ _ _ _ H1). }
    replace (seen ++ g :: rest) with ((seen ++ [g]) ++ rest) in *
      by (rewrite <- app_assoc; reflexivity).
    apply (IH _ _ _ H1 Hout1 S).
Qed.

(** X15: when the guesses come in printed order, as [ALL_CODES] does, a
    recommendation that is not itself one of the candidates has the least
    worst case of all the guesses. *)
Theorem recommendNextGuess_outsider_minimax (r1 r2 : Code) (rest : list Code)
        (g0 : Code) (guesses : list Code) :
  Forall (fun c => well_typed c = true) (r1 :: r2 :: rest) ->
  Forall (fun c => well_typed c = true) (g0 :: guesses) ->
  StronglySorted printed_lt (g0 :: guesses) ->
  ~ In (recommendNextGuess (r1 :: r2 :: rest) (g0 :: guesses)) (r1 :: r2 :: rest) ->
  forall g, In g (g0 :: guesses) ->
    worst (r1 :: r2 :: rest) (recommendNextGuess (r1 :: r2 :: rest) (g0 :: guesses))
    <= worst (r1 :: r2 :: rest) g.
Proof.
  intros Hr Hg S Hnot g Hin.
  rewrite recommendNextGuess_scan in *. unfold scan_guesses in *.
  change (fold_left ?f (g0 :: guesses) ?b) with (fold_left f guesses (f b g0)) in *.
  set (remaining := r1 :: r2 :: rest) in *.
  pose proof (first_consider_scan_inv remaining g0) as H0.
  assert (Hout0 : bestIsRemaining
                    (consider remaining (Js.set_of_list (map codeToString remaining))
                              (mkBest (mkCode 1 1 2 2) Js.Infinity false) g0) = false ->
                  worst remaining
                    (bestGuess
                       (consider remaining (Js.set_of_list (map codeToString remaining))
                                 (mkBest (mkCode 1 1 2 2) Js.Infinity false) g0))
                  = worst remaining g0).
  { intros _. unfold consider. cbn [bestScore Js.ltb_num bestGuess]. reflexivity. }
  destruct (fold_consider_outsider remaining guesses [g0] _ _ H0 Hout0 S)
    as (m & [Hs Hl Ha Hseen Hm] & Hout).
  set (final := fold_left _ guesses _) in *.
  assert (Hwt : well_typed (bestGuess final) = true)
    by (rewrite Forall_forall in Hg; now apply Hg).
  assert (Hb : bestIsRemaining final = false).
  { rewrite Hm. destruct (in_remaining_set remaining (bestGuess final)) eqn:E;
      [|reflexivity].
    apply (in_remaining_set_iff remaining _ Hr Hwt) in E. contradiction. }
  rewrite (Hout Hb). now apply Hl.
Qed.

Lemma recommendNextGuess_outsider_minimax_witness :
  worst [mkCode 1 1 1 1; mkCode 1 1 1 2; mkCode 1 1 1 3]
        (recommendNextGuess [mkCode 1 1 1 1; mkCode 1 1 1 2; mkCode 1 1 1 3]
                            [mkCode 1 1 1 4; mkCode 2 2 3 2])
  <= worst [mkCode 1 1 1 1; mkCode 1 1 1 2; mkCode 1 1 1 3] (mkCode 1 1 1 4).
Proof.
  apply (recommendNextGuess_outsider_minimax
           (mkCode 1 1 1 1) (mkCode 1 1 1 2) [mkCode 1 1 1 3]
           (mkCode 1 1 1 4) [mkCode 2 2 3 2]).
  - repeat constructor.
  - repeat constructor.
  - repeat constructor.
  - vm_compute. intuition discriminate.
  - now left.
Defined.


(** ** The validator *)

Lemma isValidFeedback_true_iff (fb : Feedback) :
  isValidFeedback fb = true <->
  0 <= black fb /\ 0 <= white fb /\ black fb + white fb <= 4.
Proof.
  unfold isValidFeedback. rewrite !Z.gtb_ltb.
  destruct (Z.ltb_spec (black fb) 0), (Z.ltb_spec (white fb) 0),
    (Z.ltb_spec 4 (black fb)), (Z.ltb_spec 4 (white fb)),
    (Z.ltb_spec 4 (black fb + white fb)); simpl;
    split; intros; try discriminate; try lia; reflexivity.
Qed.


(** ** The application: pins and steps *)

Lemma trunc_inject_Z (z : Z) : App.trunc (inject_Z z) = z.
Proof. unfold App.trunc, inject_Z. simpl. apply Z.quot_1_r. Qed.

Lemma clampInt_range (n : App.number) (min max : Z) :
  min <= max -> min <= App.clampInt n min max <= max.
Proof.
  intros H. destruct n; simpl; lia.
Qed.

Lemma clampInt_whole (z min max : Z) :
  min <= z <= max -> App.clampInt (App.Finite (inject_Z z)) min max = z.
Proof.
  intros H. unfold App.clampInt. rewrite trunc_inject_Z. lia.
Qed.

(** X17: [clampInt] answers a whole number between [min] and [max] when
    [min <= max]; it leaves a whole number of that range as it is, cuts the
    fraction of any other finite number towards zero before clamping, and
    answers [min] for [NaN] and the infinities. *)
Theorem clampInt_clamps (n : App.number) (min max : Z) :
  (min <= max -> min <= App.clampInt n min max <= max)
  /\ (forall z, min <= z <= max -> App.clampInt (App.Finite (inject_Z z)) min max = z)
  /\ (App.isFinite n = false -> App.clampInt n min max = min)
  /\ (forall q, n = App.Finite q ->
       App.clampInt n min max = Z.max min (Z.min max (Z.quot (Qnum q) (Z.pos (Qden q))))).
Proof.
  split; [apply clampInt_range|].
  split; [intros z; apply clampInt_whole|].
  split.
  - destruct n; simpl; intros; try reflexivity; discriminate.
  - intros q ->. reflexivity.
Qed.

Lemma clampInt_clamps_witness :
  0 <= App.clampInt (App.Finite (-7 # 2)) 0 4 <= 4.
Proof.
  apply (proj1 (clampInt_clamps (App.Finite (-7 # 2)) 0 4)). lia.
Defined.

Lemma clamped_feedback_valid (b w : App.number) :
  isValidFeedback (mkFeedback (App.clampInt b 0 4) (App.clampInt w 0 4)) = true
  <-> App.clampInt b 0 4 + App.clampInt w 0 4 <= 4.
Proof.
  rewrite isValidFeedback_true_iff. cbn [black white].
  pose proof (clampInt_range b 0 4). pose proof (clampInt_range w 0 4). lia.
Qed.

(** X18: [addStep] records the current guess with the clamped pins when
    these sum to at most 4, and then sets the pins to zero and the current
    guess to the recommendation for the new history; when they sum to
    more, it changes nothing. *)
Theorem addStep_records (st : App.State) :
  (App.clampInt (App.blackPins st) 0 4 + App.clampInt (App.whitePins st) 0 4 <= 4 ->
   App.steps (App.addStep st)
   = App.steps st
       ++ [mkStep (App.currentGuess st)
                  (mkFeedback (App.clampInt (App.blackPins st) 0 4)
                              (App.clampInt (App.whitePins st) 0 4))]
   /\ App.currentGuess (App.addStep st) = App.recommended (App.addStep st)
   /\ App.blackPins (App.addStep st) = App.Finite 0
   /\ App.whitePins (App.addStep st) = App.Finite 0)
  /\ (4 < App.clampInt (App.blackPins st) 0 4 + App.clampInt (App.whitePins st) 0 4 ->
      App.addStep st = st).
Proof.
  unfold App.addStep.
  destruct (isValidFeedback _) eqn:E; cbn [negb].
  - split; [|intros H; apply clamped_feedback_valid in E; lia].
    intros _. repeat split.
  - split; [|reflexivity].
    intros H. apply clamped_feedback_valid in H. congruence.
Qed.

Lemma addStep_records_witness :
  App.steps (App.addStep (App.mkState [] firstGuess (App.Finite 1) (App.Finite 2)))
  = [mkStep firstGuess (mkFeedback 1 2)].
Proof.
  apply (proj1 (addStep_records (App.mkState [] firstGuess (App.Finite 1) (App.Finite 2)))).
  vm_compute. discriminate.
Defined.

Lemma pin_ok_zero : App.pin_ok (App.Finite 0).
Proof. exists 0. split; [reflexivity | lia]. Qed.

Lemma pin_ok_clamped (n : App.number) :
  App.pin_ok (App.Finite (inject_Z (App.clampInt n 0 4))).
Proof.
  exists (App.clampInt n 0 4). split; [reflexivity|]. apply clampInt_range. lia.
Qed.

Lemma initialState_ok (loaded : option (list Step)) :
  (forall s, loaded = Some s -> Forall step_ok s) ->
  state_ok (App.initialState loaded).
Proof.
  intros H. unfold App.initialState.
  destruct loaded as [s|].
  - constructor; cbn; auto using pin_ok_zero.
    destruct s; reflexivity.
  - constructor; cbn; auto using pin_ok_zero.
Qed.

Lemma addStep_ok (st : App.State) : state_ok st -> state_ok (App.addStep st).
Proof.
  intros [Hs Hg Hb Hw]. unfold App.addStep.
  destruct (isValidFeedback _) eqn:E; cbn [negb]; [|now constructor].
  constructor; cbn [App.steps App.currentGuess App.blackPins App.whitePins];
    auto using pin_ok_zero.
  - apply Forall_app. split; [assumption|].
    constructor; [|constructor]. split; assumption.
  - apply recommendNextGuess_keeps_type; [|apply all_codes_well_typed].
    apply filterRemaining_keeps_type, all_codes_well_typed.
Qed.

Lemma changePeg_ok (i : nat) (v : Z) (st : App.State) :
  is_peg v = true -> state_ok st -> state_ok (App.changePeg i v st).
Proof.
  intros Hv [Hs Hg Hb Hw].
  constructor; cbn [App.changePeg App.steps App.currentGuess App.blackPins App.whitePins];
    auto.
  unfold well_typed in *. rewrite !andb_true_iff in Hg.
  destruct Hg as [[[H0 H1] H2] H3].
  destruct i as [|[|[|i]]]; cbn [peg0 peg1 peg2 peg3];
    rewrite ?H0, ?H1, ?H2, ?H3, ?Hv; reflexivity.
Qed.

Lemma handle_ok (a : App.action) (st : App.State) :
  App.offered a -> state_ok st -> state_ok (App.handle a st).
Proof.
  intros Ha H. destruct a as [| |n|n|i v]; cbn [App.handle].
  - now apply addStep_ok.
  - constructor; cbn; auto using pin_ok_zero.
  - destruct H as [Hs Hg Hb Hw]. constructor; cbn; auto using pin_ok_clamped.
  - destruct H as [Hs Hg Hb Hw]. constructor; cbn; auto using pin_ok_clamped.
  - destruct Ha as [_ Hv]. now apply changePeg_ok.
Qed.

(** X19: in every state the application can reach, starting with nothing
    stored or with stored steps that are in order, every recorded step has
    feedback that passes the validator and a well typed guess, the current
    guess is well typed, and both pin fields hold whole numbers from 0
    to 4. *)
Theorem reachable_state_ok (loaded : option (list Step)) (st : App.State) :
  (forall s, loaded = Some s -> Forall step_ok s) ->
  App.reachable loaded st -> state_ok st.
Proof.
  intros Hl R. induction R as [|st a R IH Ha].
  - now apply initialState_ok.
  - now apply handle_ok.
Qed.

Lemma reachable_state_ok_witness :
  state_ok (App.handle App.AddStep
              (App.handle (App.ChangeBlackPins (App.Finite (5 # 2)))
                          (App.initialState None))).
Proof.
  apply (reachable_state_ok None).
  - intros s [=].
  - apply App.reach_step; [apply App.reach_step; [apply App.reach_init|]|]; exact I.
Defined.

(** X20: feedback that is the true score of a secret still among the
    candidates is never refused, and recording it keeps that secret among
    the candidates. *)
Theorem addStep_honest (st : App.State) (secret : Code) :
  In secret (App.remaining st) ->
  App.blackPins st
    = App.Finite (inject_Z (black (feedbackFor secret (App.currentGuess st)))) ->
  App.whitePins st
    = App.Finite (inject_Z (white (feedbackFor secret (App.currentGuess st)))) ->
  App.steps (App.addStep st)
    = App.steps st
        ++ [mkStep (App.currentGuess st) (feedbackFor secret (App.currentGuess st))]
  /\ In secret (App.remaining (App.addStep st)).
Proof.
  intros Hin Eb Ew.
  pose proof (feedbackFor_range secret (App.currentGuess st)) as R.
  assert (Cb : App.clampInt (App.blackPins st) 0 4
               = black (feedbackFor secret (App.currentGuess st)))
    by (rewrite Eb; apply clampInt_whole; lia).
  assert (Cw : App.clampInt (App.whitePins st) 0 4
               = white (feedbackFor secret (App.currentGuess st)))
    by (rewrite Ew; apply clampInt_whole; lia).
  assert (Es : App.steps (App.addStep st)
               = App.steps st
                   ++ [mkStep (App.currentGuess st)
                              (feedbackFor secret (App.currentGuess st))]).
  { unfold App.addStep. rewrite Cb, Cw.
    assert (V : isValidFeedback
                  (mkFeedback (black (feedbackFor secret (App.currentGuess st)))
                              (white (feedbackFor secret (App.currentGuess st)))) = true)
      by (apply isValidFeedback_true_iff; cbn [black white]; lia).
    rewrite V. cbn [negb App.steps].
    now destruct (feedbackFor secret (App.currentGuess st)). }
  split; [exact Es|].
  unfold App.remaining in *. rewrite Es, filterRemaining_app. simpl.
  apply filter_In. split; [assumption | apply consistent_scored].
Qed.

Lemma addStep_honest_witness :
  In (mkCode 3 4 5 6)
     (App.remaining (App.addStep (App.mkState [] firstGuess (App.Finite 0) (App.Finite 0)))).
Proof.
  apply (addStep_honest (App.mkState [] firstGuess (App.Finite 0) (App.Finite 0))
                        (mkCode 3 4 5 6)).
  - unfold App.remaining. cbn [App.steps filterRemaining fold_left].
    apply in_all_codes. reflexivity.
  - reflexivity.
  - reflexivity.
Defined.

(** ** The application: which step eliminated a code *)

Section AnyMapFacts.
Context {K V : Type}.
Variable keqb : K -> K -> bool.
Hypothesis keqb_eq : forall a b, keqb a b = true <-> a = b.

Lemma get_set_any (m : Js.t (K:=K) (V:=V)) (k k0 : K) (v : V) :
  Js.get keqb (Js.set keqb m k v) k0 =
  if keqb k k0 then Some v else Js.get keqb m k0.
Proof.
  induction m as [|[k' v'] m IH]; simpl.
  - destruct (keqb k k0) eqn:E.
    + apply keqb_eq in E. subst. now rewrite (proj2 (keqb_eq k0 k0) eq_refl).
    + destruct (keqb k0 k) eqn:E'; [|reflexivity].
      apply keqb_eq in E'. subst.
      rewrite (proj2 (keqb_eq k k) eq_refl) in E. discriminate.
  - destruct (keqb k k') eqn:E; simpl.
    + apply keqb_eq in E. subst k'.
      destruct (keqb k0 k) eqn:E0.
      * apply keqb_eq in E0. subst. now rewrite (proj2 (keqb_eq k k) eq_refl).
      * destruct (keqb k k0) eqn:E1; [|reflexivity].
        apply keqb_eq in E1. subst.
        rewrite (proj2 (keqb_eq k0 k0) eq_refl) in E0. discriminate.
    + rewrite IH. destruct (keqb k0 k') eqn:E0; [|reflexivity].
      apply keqb_eq in E0. subst k'.
      destruct (keqb k k0) eqn:E1; [|reflexivity]. congruence.
Qed.

End AnyMapFacts.

Lemma set_has_cons (x : Js.str) (s : list Js.str) (k : Js.str) :
  Js.set_has (x :: s) k = Js.str_eqb k x || Js.set_has s k.
Proof. reflexivity. Qed.

Lemma str_eqb_sym (a b : Js.str) : Js.str_eqb a b = Js.str_eqb b a.
Proof.
  destruct (Js.str_eqb a b) eqn:E, (Js.str_eqb b a) eqn:E'; try reflexivity.
  - apply str_eqb_eq in E. subst. rewrite (proj2 (str_eqb_eq b b) eq_refl) in E'.
    discriminate.
  - apply str_eqb_eq in E'. subst. rewrite (proj2 (str_eqb_eq a a) eq_refl) in E.
    discriminate.
Qed.

(** After the first loop every code given has an empty entry. *)
Lemma elim_init_from (codes : list Code) (m0 : Js.t) (k : Js.str) :
  Js.get Js.str_eqb
    (fold_left (fun info code =>
                  Js.set Js.str_eqb info (codeToString code) (App.mkElimInfo None))
               codes m0) k
  = if Js.set_has (map codeToString codes) k then Some (App.mkElimInfo None)
    else Js.get Js.str_eqb m0 k.
Proof.
  revert m0; induction codes as [|c codes IH]; intros m0; simpl; [reflexivity|].
  rewrite IH, (get_set_any Js.str_eqb str_eqb_eq).
  change (existsb (Js.str_eqb k) (map codeToString codes))
    with (Js.set_has (map codeToString codes) k).
  rewrite (str_eqb_sym k).
  destruct (Js.set_has (map codeToString codes) k), (Js.str_eqb (codeToString c) k);
    reflexivity.
Qed.

Lemma set_has_printed (codes : list Code) (c : Code) :
  In c codes -> Js.set_has (map codeToString codes) (codeToString c) = true.
Proof.
  intros H. apply set_has_iff. now apply in_map.
Qed.

Lemma elim_init_get (c : Code) :
  In c ALL_CODES ->
  Js.get Js.str_eqb App.elim_init (codeToString c) = Some (App.mkElimInfo None).
Proof.
  intros H. unfold App.elim_init. rewrite elim_init_from.
  now rewrite set_has_printed.
Qed.

Lemma elim_mark_twice (keep : list Js.str) (i : nat) (k : Js.str) (e : App.ElimInfo) :
  elim_mark keep i k (elim_mark keep i k e) = elim_mark keep i k e.
Proof.
  unfold elim_mark. destruct e as [[z|]]; simpl; [reflexivity|].
  destruct (Js.set_has keep k); reflexivity.
Qed.

(** One turn of the inner loop rewrites the entry of its code and no
    other. *)
Lemma elim_visit_get (keep : list Js.str) (i : nat) (info : Js.t) (c : Code)
      (e : App.ElimInfo) :
  Js.get Js.str_eqb info (codeToString c) = Some e ->
  exists info1,
    App.elim_visit keep i (Some info) c = Some info1
    /\ forall k, Js.get Js.str_eqb info1 k
                 = if Js.str_eqb (codeToString c) k
                   then Some (elim_mark keep i (codeToString c) e)
                   else Js.get Js.str_eqb info k.
Proof.
  intros He. unfold App.elim_visit, elim_mark. rewrite He.
  destruct (App.is_null (App.eliminatedAtStep e) && negb (Js.set_has keep (codeToString c))).
  - eexists. split; [reflexivity|]. intros k. apply (get_set_any Js.str_eqb str_eqb_eq).
  - exists info. split; [reflexivity|]. intros k.
    destruct (Js.str_eqb (codeToString c) k) eqn:E; [|reflexivity].
    apply str_eqb_eq in E. now subst.
Qed.

(** The inner loop never meets a missing entry, and marks the entries of
    the codes it visits. *)
Lemma elim_visit_all (keep : list Js.str) (i : nat) (codes : list Code) (info : Js.t) :
  (forall c, In c codes -> Js.get Js.str_eqb info (codeToString c) <> None) ->
  exists info',
    fold_left (App.elim_visit keep i) codes (Some info) = Some info'
    /\ forall k, Js.get Js.str_eqb info' k
                 = match Js.get Js.str_eqb info k with
                   | Some e => Some (if Js.set_has (map codeToString codes) k
                                     then elim_mark keep i k e else e)
                   | None => None
                   end.
Proof.
  revert info; induction codes as [|c codes IH]; intros info Hall.
  - exists info. split; [reflexivity|]. intros k. simpl.
    now destruct (Js.get Js.str_eqb info k).
  - destruct (Js.get Js.str_eqb info (codeToString c)) as [e|] eqn:He;
      [|exfalso; apply (Hall c); [now left | assumption]].
    destruct (elim_visit_get keep i info c e He) as (info1 & E1 & G1).
    destruct (IH info1) as (info' & E' & G').
    { intros c' Hc'. rewrite G1.
      destruct (Js.str_eqb (codeToString c) (codeToString c')); [discriminate|].
      apply Hall. now right. }
    exists info'. split; [cbn [fold_left]; rewrite E1; exact E'|].
    intros k. rewrite G', G1. cbn [map]. rewrite set_has_cons, (str_eqb_sym k).
    destruct (Js.str_eqb (codeToString c) k) eqn:Ek.
    + apply str_eqb_eq in Ek. subst k. rewrite He. cbn [orb]. f_equal.
      destruct (Js.set_has (map codeToString codes) (codeToString c));
        [apply elim_mark_twice | reflexivity].
    + reflexivity.
Qed.

Lemma first_inconsistent_snoc (n : Z) (steps : list Step) (st : Step) (c : Code) :
  first_inconsistent_from n (steps ++ [st]) c
  = match first_inconsistent_from n steps c with
    | Some k => Some k
    | None => if consistent st c then None else Some (n + Z.of_nat (length steps))
    end.
Proof.
  revert n; induction steps as [|s steps IH]; intros n; simpl.
  - rewrite Z.add_0_r. reflexivity.
  - destruct (consistent s c); [|reflexivity].
    rewrite IH. replace (n + 1 + Z.of_nat (length steps))
      with (n + Z.pos (Pos.of_succ_nat (length steps))) by lia.
    reflexivity.
Qed.

Lemma first_inconsistent_none (n : Z) (steps : list Step) (c : Code) :
  first_inconsistent_from n steps c = None <-> consistent_with_all steps c = true.
Proof.
  unfold consistent_with_all.
  revert n; induction steps as [|s steps IH]; intros n; simpl; [tauto|].
  destruct (consistent s c); simpl; [apply IH|].
  split; discriminate.
Qed.

Lemma first_inconsistent_some (n : Z) (steps : list Step) (c : Code) (k : Z) :
  first_inconsistent_from n steps c = Some k ->
  exists before st after,
    steps = before ++ st :: after
    /\ k = n + Z.of_nat (length before)
    /\ consistent st c = false
    /\ consistent_with_all before c = true.
Proof.
  revert n; induction steps as [|s steps IH]; intros n; simpl; [discriminate|].
  destruct (consistent s c) eqn:E.
  - intros H. destruct (IH _ H) as (before & st & after & -> & -> & Hst & Hb).
    exists (s :: before), st, after. repeat split; auto.
    + simpl length. lia.
    + unfold consistent_with_all in *. simpl. now rewrite E.
  - intros [= <-]. exists [], s, steps. repeat split; auto. simpl. lia.
Qed.

Lemma firstn_succ_snoc {A : Type} (n : nat) (l : list A) :
  (n < length l)%nat -> exists x, firstn (S n) l = firstn n l ++ [x].
Proof.
  revert l; induction n as [|n IH]; intros [|y l] H; simpl in H; try lia.
  - exists y. reflexivity.
  - destruct (IH l) as [x E]; [lia|]. exists x.
    change (firstn (S (S n)) (y :: l)) with (y :: firstn (S n) l).
    rewrite E. reflexivity.
Qed.

Lemma consistent_with_all_snoc (steps : list Step) (st : Step) (c : Code) :
  consistent_with_all (steps ++ [st]) c = consistent_with_all steps c && consistent st c.
Proof.
  unfold consistent_with_all. rewrite forallb_app. simpl. now rewrite andb_true_r.
Qed.

(** Whether the set of printed candidates of a round has a code. *)
Lemma keep_has (steps : list Step) (c : Code) :
  well_typed c = true ->
  Js.set_has (Js.set_of_list (map codeToString (filterRemaining steps ALL_CODES)))
             (codeToString c)
  = consistent_with_all steps c.
Proof.
  intros Hc.
  pose proof (in_remaining_set_iff (filterRemaining steps ALL_CODES) c
                (filterRemaining_keeps_type steps ALL_CODES all_codes_well_typed) Hc) as H.
  unfold in_remaining_set in H.
  rewrite filterRemaining_one_filter, filter_In in H.
  rewrite <- filterRemaining_one_filter in H.
  destruct (Js.set_has _ _), (consistent_with_all steps c); try reflexivity.
  - destruct (proj1 H eq_refl) as [_ F]. discriminate.
  - assert (T : false = true); [|discriminate].
    apply H. split; [|reflexivity]. exact (proj2 (in_all_codes c) Hc).
Qed.

(** After the rounds for the first [n] steps every code carries the
    number of the first of those steps it disagrees with. *)
Lemma elim_rounds (steps : list Step) (n : nat) :
  (n <= length steps)%nat ->
  exists info,
    fold_left (App.elim_round steps) (seq 0 n) (Some App.elim_init) = Some info
    /\ forall c, well_typed c = true ->
         Js.get Js.str_eqb info (codeToString c)
         = Some (App.mkElimInfo (first_inconsistent (firstn n steps) c)).
Proof.
  induction n as [|n IH]; intros Hn.
  - exists App.elim_init. split; [reflexivity|].
    intros c Hc. apply elim_init_get. exact (proj2 (in_all_codes c) Hc).
  - destruct IH as (info & E & G); [lia|].
    rewrite seq_S, fold_left_app, E. cbn [fold_left Nat.add].
    unfold App.elim_round.
    destruct (elim_visit_all
                (Js.set_of_list
                   (map codeToString (filterRemaining (firstn (n + 1) steps) ALL_CODES)))
                n ALL_CODES info) as (info' & E' & G').
    { intros c Hc. rewrite G; [discriminate|]. exact (proj1 (in_all_codes c) Hc). }
    exists info'. split; [exact E'|].
    intros c Hc. rewrite G', (G c Hc).
    rewrite set_has_printed by exact (proj2 (in_all_codes c) Hc).
    f_equal. unfold elim_mark. cbn [App.eliminatedAtStep].
    rewrite (keep_has _ c Hc). rewrite Nat.add_1_r.
    destruct (firstn_succ_snoc n steps) as [st Est]; [lia|].
    rewrite Est. unfold first_inconsistent.
    rewrite first_inconsistent_snoc, consistent_with_all_snoc.
    rewrite length_firstn, Nat.min_l by lia.
    destruct (first_inconsistent_from 1 (firstn n steps) c) as [k|] eqn:F.
    + reflexivity.
    + apply first_inconsistent_none in F. rewrite F. cbn [App.is_null andb].
      destruct (consistent st c); cbn [negb]; [reflexivity|].
      f_equal. f_equal. lia.
Qed.

(** X21: [eliminationMap] never meets a missing entry, and gives every
    well typed code the number of the first step it disagrees with, or
    no number when the code is still a candidate. *)
Theorem eliminationMap_first_inconsistent (steps : list Step) :
  exists info,
    App.eliminationMap steps = Some info
    /\ forall c, well_typed c = true ->
         Js.get Js.str_eqb info (codeToString c)
         = Some (App.mkElimInfo (first_inconsistent steps c))
         /\ (first_inconsistent steps c = None <->
             In c (filterRemaining steps ALL_CODES))
         /\ (forall k, first_inconsistent steps c = Some k ->
              exists before st after,
                steps = before ++ st :: after
                /\ k = Z.of_nat (length before) + 1
                /\ feedbackFor c (guess st) <> feedback st
                /\ forall s, In s before -> feedbackFor c (guess s) = feedback s).
Proof.
  destruct (elim_rounds steps (length steps) (Nat.le_refl _)) as (info & E & G).
  exists info. split; [exact E|].
  intros c Hc. rewrite firstn_all in G. split; [now apply G|]. split.
  - unfold first_inconsistent. rewrite first_inconsistent_none.
    rewrite filterRemaining_one_filter, filter_In.
    pose proof (proj2 (in_all_codes c) Hc). tauto.
  - intros k Hk. apply first_inconsistent_some in Hk.
    destruct Hk as (before & st & after & -> & -> & Hst & Hb).
    exists before, st, after. repeat split; [lia | |].
    + intros Habs. apply consistent_iff in Habs. congruence.
    + intros s Hs. apply consistent_iff.
      unfold consistent_with_all in Hb. rewrite forallb_forall in Hb. now apply Hb.
Qed.

Lemma eliminationMap_first_inconsistent_witness :
  exists info,
    App.eliminationMap [mkStep (mkCode 1 1 2 2) (mkFeedback 0 0)] = Some info
    /\ Js.get Js.str_eqb info (codeToString (mkCode 1 3 4 5))
       = Some (App.mkElimInfo (Some 1)).
Proof.
  destruct (eliminationMap_first_inconsistent [mkStep (mkCode 1 1 2 2) (mkFeedback 0 0)])
    as (info & E & G).
  exists info. split; [exact E|].
  exact (proj1 (G (mkCode 1 3 4 5) eq_refl)).
Defined.

(** ** The groups of one guess *)

Lemma count_into_total {A K : Type} (keqb : K -> K -> bool) (key : A -> K)
      (l : list A) (m0 : Js.t) :
  zsum (Js.values (count_into keqb key l m0))
  = zsum (Js.values m0) + Z.of_nat (length l).
Proof.
  revert m0; induction l as [|x l IH]; intros m0.
  - simpl. ring.
  - change (count_into keqb key (x :: l) m0)
      with (count_into keqb key l
              (Js.set keqb m0 (key x) (Js.get_or0 keqb m0 (key x) + 1))).
    rewrite IH, zsum_values_incr. simpl length. lia.
Qed.

(** X22: the map the recommender builds for a guess has one entry for
    each feedback the candidates give, holding the number of candidates
    that give it; the counts add up to the number of candidates. *)
Theorem partitions_of_counts_groups (remaining : list Code) (g : Code) :
  NoDup (Js.keys (partitions_of remaining g))
  /\ (forall k, In k (Js.keys (partitions_of remaining g)) <->
                exists c, In c remaining /\ feedbackKey (feedbackFor c g) = k)
  /\ (forall c,
        Js.get_or0 Js.str_eqb (partitions_of remaining g) (feedbackKey (feedbackFor c g))
        = Z.of_nat (length (group remaining g (feedbackFor c g))))
  /\ zsum (Js.values (partitions_of remaining g)) = Z.of_nat (length remaining).
Proof.
  rewrite partitions_of_count. split; [|split; [|split]].
  - apply (count_into_nodup Js.str_eqb str_eqb_eq). constructor.
  - intros k. rewrite (count_into_keys Js.str_eqb str_eqb_eq), in_map_iff. simpl.
    split.
    + intros [[]|(c & E & Hc)]. exists c. auto.
    + intros (c & Hc & E). right. exists c. auto.
  - intros c. rewrite (count_into_get Js.str_eqb str_eqb_eq).
    cbn [Js.get_or0 Js.get]. rewrite Z.add_0_l.
    unfold occurrences, group. do 2 f_equal.
    apply filter_ext. intros c'. apply feedbackFor_key_eqb.
  - rewrite count_into_total. simpl. ring.
Qed.
